(** * level5-backend: the normalisation-and-comparison engine of [server.js]

    A shallow embedding of [src/server.js] and the properties the
    specification states about it.

    Conventions of the embedding.
    - A JavaScript number is an IEEE-754 binary64 value, modelled by
      [spec_float] with precision 53 and exponent bound 1024; arithmetic and
      comparisons are the ones of [SpecFloat], which work on integers and
      need no assumption.
    - A JavaScript string is the sequence of its code units; the model keeps
      the code units below 256, so a string is a [string] of the standard
      library and a code unit is an [ascii].
    - [null] in a field that is otherwise a number is [None].
    - Effects (the cache, the clock, the upstream call) are threaded through
      an explicit [world].  Requests are handled one at a time; within a
      request the two searches of a [Promise.all] both start before either
      reply is handled, and the replies are handled in the order they
      arrive. *)

From Stdlib Require Import ZArith Ascii String List Bool Lia.
From Stdlib Require Import Floats.SpecFloat DecimalString.
From stdpp Require Import gmap strings list fin_maps.

Local Open Scope Z_scope.

(* ===================================================================== *)
(** * Numbers *)
(* ===================================================================== *)

Module Num.

Definition prec : Z := 53.
Definition emax : Z := 1024.

(** A JavaScript number. *)
Definition num : Type := spec_float.

Definition NaN : num := S754_nan.
Definition Infinity : num := S754_infinity false.
Definition zero : num := S754_zero false.

Definition mul (a b : num) : num := SFmul prec emax a b.
Definition div (a b : num) : num := SFdiv prec emax a b.
Definition ltb (a b : num) : bool := SFltb a b.

Definition is_nan (a : num) : bool :=
  match a with S754_nan => true | _ => false end.

Definition is_zero (a : num) : bool :=
  match a with S754_zero _ => true | _ => false end.

(** [Number.isFinite]. *)
Definition isFinite (a : num) : bool :=
  match a with
  | S754_zero _ | S754_finite _ _ _ => true
  | S754_infinity _ | S754_nan => false
  end.

(** ToBoolean on a number: false for [+0], [-0] and [NaN]. *)
Definition truthy (a : num) : bool :=
  match a with
  | S754_zero _ | S754_nan => false
  | S754_infinity _ | S754_finite _ _ _ => true
  end.

(** The number nearest to [m / d] (ties to even), for integers [0 <= m]
    and [0 < d], with sign [s]: the value a decimal literal with digits
    [m] and [d = 10 ^ k] denotes. *)
Definition of_ratio (s : bool) (m d : Z) : num :=
  match m with
  | Z0 => S754_zero s
  | _ =>
      let '(q, e, l) := SFdiv_core_binary prec emax m 0 d 0 in
      binary_round_aux prec emax s q e l
  end.

Definition of_Z (z : Z) : num := of_ratio (z <? 0) (Z.abs z) 1.

(** What [x.toFixed(2)] writes.  The text itself is not built: the
    constructors keep what the text denotes. *)
Inductive fixed2 : Type :=
| FixNaN                          (* "NaN" *)
| FixInfinity (s : bool)          (* "Infinity", "-Infinity" *)
| FixToString (x : num)           (* 1e21 <= |x|: the text of ToString(x) *)
| FixDigits (s : bool) (n : Z).   (* sign, then the digits of n with a
                                     point before the last two *)

(** [1e21 <= m * 2^e]. *)
Definition ge_1e21 (m : positive) (e : Z) : bool :=
  if 0 <=? e then 10 ^ 21 <=? Z.pos m * 2 ^ e
  else 10 ^ 21 * 2 ^ (- e) <=? Z.pos m.

(** The integer [n] for which [n / 100 - m * 2^e] is as close to zero as
    possible, the larger one when there are two. *)
Definition scaled2 (m : positive) (e : Z) : Z :=
  if 0 <=? e then 100 * Z.pos m * 2 ^ e
  else (200 * Z.pos m + 2 ^ (- e)) / 2 ^ (1 - e).

(** [Number.prototype.toFixed] with 2 fraction digits. *)
Definition toFixed2 (x : num) : fixed2 :=
  match x with
  | S754_nan => FixNaN
  | S754_infinity s => FixInfinity s
  | S754_zero _ => FixDigits false 0
  | S754_finite s m e =>
      if ge_1e21 m e then FixToString x else FixDigits s (scaled2 m e)
  end.

(** Unary [+] on the text [toFixed] wrote.  The text of [ToString(x)] reads
    back as [x]. *)
Definition unary_plus (t : fixed2) : num :=
  match t with
  | FixNaN => NaN
  | FixInfinity s => S754_infinity s
  | FixToString x => x
  | FixDigits s n => of_ratio s n 100
  end.

End Num.

Import Num.

(* ===================================================================== *)
(** * Strings *)
(* ===================================================================== *)

Module Str.

Definition code (c : ascii) : N := N_of_ascii c.

Definition in_range (lo hi : N) (c : ascii) : bool :=
  ((lo <=? code c) && (code c <=? hi))%N.

(** [\d]: the ten ASCII digits. *)
Definition is_digit (c : ascii) : bool := in_range 48 57 c.

(** [\s], and the characters [trim] removes: TAB, LF, VT, FF, CR, space
    and the no-break space (the white space and line terminators below
    code unit 256). *)
Definition is_space (c : ascii) : bool :=
  in_range 9 13 c || (code c =? 32)%N || (code c =? 160)%N.

(** A word character, for [\b]: letters, digits and the underscore. *)
Definition is_word (c : ascii) : bool :=
  in_range 97 122 c || in_range 65 90 c || is_digit c || (code c =? 95)%N.

Definition digit_or_dot (c : ascii) : bool :=
  is_digit c || (code c =? 46)%N.

Definition digit_val (c : ascii) : Z := Z.of_N (code c) - 48.

Definition shift_code (d : N) (c : ascii) : ascii := ascii_of_N (code c + d).
Definition unshift_code (d : N) (c : ascii) : ascii := ascii_of_N (code c - d).

(** [toLowerCase] on one code unit: A-Z, and the capital letters
    U+00C0..U+00DE other than the multiplication sign. *)
Definition lower_char (c : ascii) : ascii :=
  if in_range 65 90 c then shift_code 32 c
  else if in_range 192 222 c && negb (code c =? 215)%N then shift_code 32 c
  else c.

(** The canonical form a case-insensitive pattern compares: the upper case
    of an ASCII letter.  A code unit from 128 on never canonicalises to an
    ASCII one, and the patterns of this program hold ASCII characters
    only, so such a code unit is left as it is. *)
Definition canonicalize (c : ascii) : ascii :=
  if in_range 97 122 c then unshift_code 32 c else c.

Fixpoint toLowerCase (s : string) : string :=
  match s with
  | EmptyString => EmptyString
  | String c s' => String (lower_char c) (toLowerCase s')
  end.

Fixpoint take_while (p : ascii -> bool) (l : list ascii) : list ascii :=
  match l with
  | x :: l' => if p x then x :: take_while p l' else []
  | [] => []
  end.

Fixpoint drop_while (p : ascii -> bool) (l : list ascii) : list ascii :=
  match l with
  | x :: l' => if p x then drop_while p l' else l
  | [] => []
  end.

(** [String.prototype.trim]. *)
Definition trim_list (l : list ascii) : list ascii :=
  rev (drop_while is_space (rev (drop_while is_space l))).

Definition trim (s : string) : string :=
  string_of_list_ascii (trim_list (list_ascii_of_string s)).

(** [s.split(',')]: the pieces between the commas, at least one piece. *)
Fixpoint split_comma (l : list ascii) : list (list ascii) :=
  match l with
  | [] => [[]]
  | x :: l' =>
      if (code x =? 44)%N then [] :: split_comma l'
      else match split_comma l' with
           | p :: ps => (x :: p) :: ps
           | [] => [[x]]
           end
  end.

Definition split (s : string) : list string :=
  List.map string_of_list_ascii (split_comma (list_ascii_of_string s)).

Fixpoint is_prefix (p l : list ascii) : bool :=
  match p, l with
  | [], _ => true
  | a :: p', b :: l' => Ascii.eqb a b && is_prefix p' l'
  | _ :: _, [] => false
  end.

Fixpoint includes_list (l p : list ascii) : bool :=
  is_prefix p l || match l with [] => false | _ :: l' => includes_list l' p end.

(** [s.includes(p)]. *)
Definition includes (s p : string) : bool :=
  includes_list (list_ascii_of_string s) (list_ascii_of_string p).

(** ToBoolean on a string. *)
Definition nonempty (s : string) : bool :=
  match s with EmptyString => false | String _ _ => true end.

(** ToString of a non-negative integer, for the template literal of the
    cache key. *)
Definition of_N (n : N) : string := NilZero.string_of_uint (N.to_uint n).

End Str.

Import Str.

(* ===================================================================== *)
(** * Regular expressions

    A backtracking matcher for the constructs the two patterns of
    [sizeToKg] use, with the semantics of a JavaScript pattern under the
    [i] flag: greedy quantifiers, ordered alternatives, numbered groups,
    and a search for the leftmost start. *)
(* ===================================================================== *)

Module Regex.

(** A member of a character class. *)
Inductive catom : Type :=
| ADigit               (* \d *)
| ASpace               (* \s *)
| AChar (a : ascii).

Inductive regex : Type :=
| Lit (a : ascii)
| Star (cs : list catom)           (* X*  on a class or an escape *)
| Plus (cs : list catom)           (* X+ *)
| Seq (r1 r2 : regex)
| Alt (r1 r2 : regex)
| Group (i : nat) (r : regex)
| WordBoundary.                    (* \b *)

Definition lit_matches (a x : ascii) : bool :=
  Ascii.eqb (canonicalize x) (canonicalize a).

Definition atom_matches (x : ascii) (a : catom) : bool :=
  match a with
  | ADigit => is_digit x
  | ASpace => is_space x
  | AChar b => lit_matches b x
  end.

Definition class_matches (cs : list catom) (x : ascii) : bool :=
  existsb (atom_matches x) cs.

(** What the matcher carries besides the rest of the input: the character
    before the current position, the groups that are open with the text
    each has read so far, and the groups that are closed. *)
Record ctx : Type := Ctx {
  prev : option ascii;
  opened : list (nat * list ascii);
  caps : list (nat * list ascii)
}.

Definition consume (x : ascii) (c : ctx) : ctx :=
  {| prev := Some x;
     opened := List.map (fun it => (fst it, snd it ++ [x])) (opened c);
     caps := caps c |}.

Definition open_group (i : nat) (c : ctx) : ctx :=
  {| prev := prev c; opened := (i, []) :: opened c; caps := caps c |}.

Fixpoint assoc (i : nat) (l : list (nat * list ascii)) : option (list ascii) :=
  match l with
  | [] => None
  | (j, t) :: l' => if Nat.eqb i j then Some t else assoc i l'
  end.

Fixpoint remove_key (i : nat) (l : list (nat * list ascii)) : list (nat * list ascii) :=
  match l with
  | [] => []
  | (j, t) :: l' => if Nat.eqb i j then l' else (j, t) :: remove_key i l'
  end.

Definition close_group (i : nat) (c : ctx) : ctx :=
  match assoc i (opened c) with
  | Some t =>
      {| prev := prev c; opened := remove_key i (opened c);
         caps := (i, t) :: caps c |}
  | None => c
  end.

Definition word_opt (o : option ascii) : bool :=
  match o with Some x => is_word x | None => false end.

Section Matcher.
Context {R : Type}.

(** Greedy repetition: one more character first, the continuation on
    what is left when that fails. *)
Fixpoint star (cs : list catom) (l : list ascii) (c : ctx)
         (k : list ascii -> ctx -> option R) : option R :=
  match l with
  | x :: l' =>
      if class_matches cs x then
        match star cs l' (consume x c) k with
        | Some r => Some r
        | None => k l c
        end
      else k l c
  | [] => k l c
  end.

Fixpoint rmatch (r : regex) (l : list ascii) (c : ctx)
         (k : list ascii -> ctx -> option R) : option R :=
  match r with
  | Lit a =>
      match l with
      | x :: l' => if lit_matches a x then k l' (consume x c) else None
      | [] => None
      end
  | Star cs => star cs l c k
  | Plus cs =>
      match l with
      | x :: l' => if class_matches cs x then star cs l' (consume x c) k else None
      | [] => None
      end
  | Seq r1 r2 => rmatch r1 l c (fun l' c' => rmatch r2 l' c' k)
  | Alt r1 r2 =>
      match rmatch r1 l c k with
      | Some res => Some res
      | None => rmatch r2 l c k
      end
  | Group i r1 =>
      rmatch r1 l (open_group i c) (fun l' c' => k l' (close_group i c'))
  | WordBoundary =>
      if xorb (word_opt (prev c)) (word_opt (head l)) then k l c else None
  end.
End Matcher.

(** The result of a match: the text of each group, group 0 the whole
    match. *)
Definition match_result : Type := list (nat * list ascii).

Definition match_at (r : regex) (p : option ascii) (l : list ascii) : option match_result :=
  rmatch (Group 0 r) l {| prev := p; opened := []; caps := [] |}
         (fun _ c => Some (caps c)).

(** The leftmost start at which the pattern matches. *)
Fixpoint search (r : regex) (p : option ascii) (l : list ascii) : option match_result :=
  match match_at r p l with
  | Some m => Some m
  | None =>
      match l with
      | [] => None
      | x :: l' => search r (Some x) l'
      end
  end.

(** [s.match(r)] for a pattern without the [g] flag. *)
Definition str_match (s : string) (r : regex) : option match_result :=
  search r None (list_ascii_of_string s).

(** [m[i]]: the text of group [i], [undefined] when it took no part. *)
Definition group (m : match_result) (i : nat) : option string :=
  option_map string_of_list_ascii (assoc i m).

End Regex.

Import Regex.

(* ===================================================================== *)
(** * Values and errors *)
(* ===================================================================== *)

(** A JavaScript value as a provider record holds it after JSON parsing:
    the scalar values.  Nested objects and arrays are left out. *)
Inductive jsval : Type :=
| VUndefined
| VNull
| VBool (b : bool)
| VNum (n : num)
| VStr (s : string).

(** ToBoolean. *)
Definition truthy (v : jsval) : bool :=
  match v with
  | VUndefined | VNull => false
  | VBool b => b
  | VNum n => Num.truthy n
  | VStr s => nonempty s
  end.

(** [a || b]. *)
Definition js_or (a b : jsval) : jsval := if truthy a then a else b.

(** [v == null]. *)
Definition nullish (v : jsval) : bool :=
  match v with VUndefined | VNull => true | _ => false end.

(** [a ?? b]. *)
Definition js_coalesce (a b : jsval) : jsval := if nullish a then b else a.

(** An object: own properties by name.  [obj.k] of a missing property is
    [undefined]. *)
Definition prop (obj : gmap string jsval) (k : string) : jsval :=
  default VUndefined (obj !! k).

(** A thrown exception, with its [message]. *)
Inductive exn : Type :=
| Error (message : string)
| TypeError (message : string).

Definition message (e : exn) : string :=
  match e with Error m | TypeError m => m end.

(** The outcome of code that may throw. *)
Inductive res (A : Type) : Type :=
| Ok (a : A)
| Throw (e : exn).
Arguments Ok {A} a.
Arguments Throw {A} e.

Definition res_bind {A B : Type} (r : res A) (f : A -> res B) : res B :=
  match r with Ok a => f a | Throw e => Throw e end.

Fixpoint res_map {A B : Type} (f : A -> res B) (l : list A) : res (list B) :=
  match l with
  | [] => Ok []
  | a :: l' =>
      res_bind (f a) (fun b => res_bind (res_map f l') (fun bs => Ok (b :: bs)))
  end.

(* ===================================================================== *)
(** * The pure functions of [server.js] *)
(* ===================================================================== *)

Record api_info : Type := ApiInfo { host : string; path : string }.

Definition getApiInfo (store : string) : option api_info :=
  let s := toLowerCase store in
  if String.eqb s "coles" then
    Some {| host := "coles-product-price-api.p.rapidapi.com";
            path := "/coles/product-search" |}
  else if String.eqb s "woolworths" then
    Some {| host := "woolworths-products-api.p.rapidapi.com";
            path := "/woolworths/product-search/" |}
  else None.

(** ** Decimal literals

    [parseFloat] and [Number] are applied to text made of digits and dots
    only (what the strip of [toNumber] leaves, and what the groups [\d+] and
    [[\d.]+] capture), so of the numeric literals only the unsigned decimal
    ones without exponent can occur. *)

Fixpoint digits_value (acc : Z) (l : list ascii) : Z :=
  match l with
  | [] => acc
  | x :: l' => digits_value (10 * acc + digit_val x) l'
  end.

Definition is_dot (x : ascii) : bool := (code x =? 46)%N.

(** The longest prefix that is a decimal literal ([digits], [digits.],
    [digits.digits] or [.digits]): its value and the text after it. *)
Definition decimal_prefix (l : list ascii) : option (num * list ascii) :=
  let ip := take_while is_digit l in
  let r1 := drop_while is_digit l in
  let whole := Some (of_ratio false (digits_value 0 ip) 1, r1) in
  match r1 with
  | x :: r2 =>
      if is_dot x then
        let fp := take_while is_digit r2 in
        match ip, fp with
        | [], [] => None
        | _, _ =>
            Some (of_ratio false (digits_value 0 (ip ++ fp))
                           (10 ^ Z.of_nat (length fp)),
                  drop_while is_digit r2)
        end
      else match ip with [] => None | _ :: _ => whole end
  | [] => match ip with [] => None | _ :: _ => whole end
  end.

Definition parseFloat (s : string) : num :=
  match decimal_prefix (list_ascii_of_string s) with
  | Some (n, _) => n
  | None => NaN
  end.

(** [Number(v)] on a string, and on [undefined]. *)
Definition Number_str (s : option string) : num :=
  match s with
  | None => NaN
  | Some EmptyString => zero
  | Some t =>
      match decimal_prefix (list_ascii_of_string t) with
      | Some (n, []) => n
      | _ => NaN
      end
  end.

(** [v.replace(/[^\d.]/g, '')]. *)
Definition strip_non_numeric (s : string) : string :=
  string_of_list_ascii (List.filter digit_or_dot (list_ascii_of_string s)).

Definition toNumber (v : jsval) : option num :=
  if nullish v then None
  else
    let n :=
      match v with
      | VStr s => parseFloat (strip_non_numeric s)
      | VNum x => x
      | VBool b => if b then of_Z 1 else zero
      | VUndefined | VNull => NaN
      end in
    if isFinite n then Some n else None.

Definition unitToKg (q : num) (u : option string) : option num :=
  let u := toLowerCase (default EmptyString u) in
  if String.eqb u "g" then Some (div q (of_Z 1000))
  else if String.eqb u "kg" then Some q
  else if String.eqb u "ml" then Some (div q (of_Z 1000))
  else if String.eqb u "l" then Some q
  else None.

(** [(g|kg|ml|l)] *)
Definition re_unit : regex :=
  Alt (Lit "g") (Alt (Seq (Lit "k") (Lit "g")) (Alt (Seq (Lit "m") (Lit "l")) (Lit "l"))).

(** [/(\d+)\s*x\s*([\d.]+)\s*(g|kg|ml|l)\b/i] *)
Definition re_multi : regex :=
  Seq (Group 1 (Plus [ADigit]))
 (Seq (Star [ASpace])
 (Seq (Lit "x")
 (Seq (Star [ASpace])
 (Seq (Group 2 (Plus [ADigit; AChar "."]))
 (Seq (Star [ASpace])
 (Seq (Group 3 re_unit)
      WordBoundary)))))).

(** [/([\d.]+)\s*(g|kg|ml|l)\b/i] *)
Definition re_single : regex :=
  Seq (Group 1 (Plus [ADigit; AChar "."]))
 (Seq (Star [ASpace])
 (Seq (Group 2 re_unit)
      WordBoundary)).

(** [a * b] where [b] may be [null]: ToNumber of [null] is [+0]. *)
Definition mul_nullable (a : num) (b : option num) : num :=
  mul a (default zero b).

Definition sizeToKg (s : string) : option num :=
  match str_match s re_multi with
  | Some m =>
      Some (mul_nullable (Number_str (group m 1))
                         (unitToKg (Number_str (group m 2)) (group m 3)))
  | None =>
      match str_match s re_single with
      | Some m => unitToKg (Number_str (group m 1)) (group m 2)
      | None => None
      end
  end.

(* ===================================================================== *)
(** * The Product Record and the normaliser *)
(* ===================================================================== *)

Module Product.
(** The object [callStoreSearch] pushes for one raw result. *)
Record t : Type := Build {
  product : jsval;
  size : jsval;
  price : option num;
  pricePerKg : option num;
  url : jsval;
  id : jsval
}.
End Product.

(** ToBoolean on a number that may be [null]. *)
Definition truthy_opt (o : option num) : bool :=
  match o with Some n => Num.truthy n | None => false end.

(** [(kg && price) ? +(price / kg).toFixed(2) : null] *)
Definition pricePerKg_of (kg price : option num) : option num :=
  match kg, price with
  | Some k, Some p =>
      if truthy_opt kg && truthy_opt price
      then Some (unary_plus (toFixed2 (div p k)))
      else None
  | _, _ => None
  end.

(** The call [sizeToKg(sizeS)]: the parameter defaults to [''] for
    [undefined], and [s.match] exists on a string only. *)
Definition sizeToKg_call (v : jsval) : res (option num) :=
  match v with
  | VStr s => Ok (sizeToKg s)
  | VUndefined => Ok (sizeToKg "")
  | VNull => Throw (TypeError "Cannot read properties of null (reading 'match')")
  | VBool _ | VNum _ => Throw (TypeError "s.match is not a function")
  end.

(** The body of the loop of [callStoreSearch], on the object [camelCase]
    returned for one raw result. *)
Definition normalize (obj : gmap string jsval) : res Product.t :=
  let sizeS :=
    js_or (js_or (js_or (prop obj "productSize") (prop obj "packageSize"))
                 (prop obj "size")) (VStr "") in
  res_bind (sizeToKg_call sizeS) (fun kg =>
  let price :=
    toNumber (js_coalesce (js_coalesce (prop obj "currentPrice") (prop obj "price"))
                          (prop obj "Price")) in
  let link :=
    js_or (js_or (js_or (prop obj "productUrl") (prop obj "url"))
                 (prop obj "link")) (VStr "") in
  let id :=
    js_or (js_or (js_or (prop obj "productId") (prop obj "id"))
                 (prop obj "sku")) (VStr "") in
  Ok {| Product.product :=
          js_or (js_or (prop obj "productName") (prop obj "name")) (VStr "");
        Product.size := sizeS;
        Product.price := price;
        Product.pricePerKg := pricePerKg_of kg price;
        Product.url := link;
        Product.id := id |}).

(* ===================================================================== *)
(** * The comparison step *)
(* ===================================================================== *)

(** [list.reduce((best, p) => (!best || lt(p, best)) ? p : best, null)] *)
Definition reduce_best (lt : Product.t -> Product.t -> bool)
           (l : list Product.t) : option Product.t :=
  fold_left (fun best p =>
               match best with
               | None => Some p
               | Some b => if lt p b then Some p else Some b
               end) l None.

(** [(p.price ?? Infinity) < (best.price ?? Infinity)] *)
Definition price_lt (p best : Product.t) : bool :=
  ltb (default Infinity (Product.price p)) (default Infinity (Product.price best)).

(** [p.pricePerKg < best.pricePerKg]; ToNumber of [null] is [+0]. *)
Definition perKg_lt (p best : Product.t) : bool :=
  ltb (default zero (Product.pricePerKg p)) (default zero (Product.pricePerKg best)).

(** [o != null] *)
Definition present {A : Type} (o : option A) : bool :=
  match o with Some _ => true | None => false end.

(** [p && p.price != null] *)
Definition has_price (p : Product.t) : bool := present (Product.price p).

(** [p.pricePerKg != null] *)
Definition has_perKg (p : Product.t) : bool := present (Product.pricePerKg p).

(** The two winners of [/cheapest], before the store is guessed. *)
Definition cheapest_all (coles woolworths : list Product.t) : list Product.t :=
  List.filter has_price (coles ++ woolworths).

Definition cheapest_byItem (coles woolworths : list Product.t) : option Product.t :=
  reduce_best price_lt (cheapest_all coles woolworths).

Definition cheapest_byKg (coles woolworths : list Product.t) : option Product.t :=
  reduce_best perKg_lt (List.filter has_perKg (cheapest_all coles woolworths)).

(** The winner of one item of [/bulk-cheapest-perkg]. *)
Definition bulk_best (coles woolworths : list Product.t) : option Product.t :=
  reduce_best perKg_lt
    (List.filter (fun p => has_price p && has_perKg p) (coles ++ woolworths)).

(** The message of the engine for [(p && p.url || '').toLowerCase()] on a
    value that has no [toLowerCase]: the callee as the engine prints it,
    every binary operation in brackets and the empty text in double
    quotes (character 34). *)
Definition no_toLowerCase : string :=
  ("((p && p.url) || " ++ String "034" (String "034" ").toLowerCase is not a function"))%string.

(** [guessStore]: the store named in the record's url.  [toLowerCase]
    exists on a string only. *)
Definition guessStore (p : Product.t) : res (option string) :=
  match js_or (Product.url p) (VStr "") with
  | VStr u =>
      let u := toLowerCase u in
      Ok (if includes u "woolworths" then Some "woolworths"
          else if includes u "coles" then Some "coles"
          else None)
  | _ => Throw (TypeError no_toLowerCase)
  end.

(** [{ store: guessStore(p), ...p }] *)
Record attributed : Type := Attributed { store : option string; record : Product.t }.

(** [best ? { store: guessStore(best), ...best } : null] *)
Definition attribute (best : option Product.t) : res (option attributed) :=
  match best with
  | None => Ok None
  | Some p => res_bind (guessStore p) (fun s => Ok (Some {| store := s; record := p |}))
  end.

(* ===================================================================== *)
(** * The cache, the provider client and the routes *)
(* ===================================================================== *)

(** A cache entry [{ until, value }]. *)
Record entry : Type := Entry { until : Z; value : list Product.t }.

(** One upstream request, as [axios.get] sends it. *)
Record request : Type := Request {
  req_host : string;
  req_path : string;
  req_query : string;
  req_page : N;
  req_size : N
}.

(** What comes back for a request: after [latency] milliseconds the promise
    rejects with an exception, or resolves with a body whose [results] field
    is missing ([None]) or holds the raw results (each one as [camelCase]
    returns it). *)
Record reply : Type := Reply {
  latency : N;
  outcome : res (option (list (gmap string jsval)))
}.

(** The state the server runs in: the cache [Map], the clock [Date.now]
    reads, and the requests sent upstream so far, latest first. *)
Record world : Type := World {
  cache : gmap string entry;
  now : Z;
  calls : list request
}.

Definition with_cache (c : gmap string entry) (w : world) : world :=
  {| cache := c; now := now w; calls := calls w |}.

(** Time passing. *)
Definition tick (d : N) (w : world) : world :=
  {| cache := cache w; now := now w + Z.of_N d; calls := calls w |}.

Definition DEFAULT_TTL : Z := 45000.

Definition putCache (k : string) (v : list Product.t) (ttl : Z) (w : world) : world :=
  with_cache (<[k := {| until := now w + ttl; value := v |}]> (cache w)) w.

Definition getCache (k : string) (w : world) : option (list Product.t) * world :=
  match cache w !! k with
  | None => (None, w)
  | Some hit =>
      if until hit <? now w then (None, with_cache (delete k (cache w)) w)
      else (Some (value hit), w)
  end.

(** [`S:${store}|q:${query}|p:${page}|s:${size}`] *)
Definition cache_key (store query : string) (page size : N) : string :=
  ("S:" ++ store ++ "|q:" ++ query ++ "|p:" ++ Str.of_N page ++ "|s:" ++ Str.of_N size)%string.

(** A promise: settled already, or waiting for the reply to a request that
    was sent. *)
Inductive pending : Type :=
| Settled (r : res (list Product.t))
| InFlight (key : string) (rp : reply).

(** The first rejection wins; [first] settles before [second]. *)
Definition both {A B : Type} (first : res A) (second : res B) : res (A * B) :=
  match first, second with
  | Throw e, _ => Throw e
  | Ok _, Throw e => Throw e
  | Ok a, Ok b => Ok (a, b)
  end.

Definition swap_res {A B : Type} (r : res (B * A)) : res (A * B) :=
  match r with Ok (b, a) => Ok (a, b) | Throw e => Throw e end.

(** An HTTP response: [res.status(n).json(body)]. *)
Inductive body : Type :=
| BError (error : string)
| BList (l : list Product.t)
| BCheapest (query : string) (cheapestByItem cheapestByKg : option attributed)
| BBulk (items : list (string * option attributed)).

Record response : Type := Response { status : nat; content : body }.

(** [res.status(500).json({ error: e.message || 'Server error' })] *)
Definition server_error (e : exn) : response :=
  {| status := 500;
     content := BError (if nonempty (message e) then message e else "Server error") |}.

Section Server.

(** [process.env.RAPIDAPI_KEY] *)
Variable RAPIDAPI_KEY : option string.

(** The provider APIs: the reply to a request sent at a given time. *)
Variable upstream : request -> Z -> reply.

Definition ensureKey : res unit :=
  if nonempty (default EmptyString RAPIDAPI_KEY) then Ok tt
  else Throw (Error "RAPIDAPI_KEY missing (set in Render env vars)").

(** [callStoreSearch] up to its [await]: the promise is settled when the
    function threw or the cache answered, and waits for the reply when the
    request was sent. *)
Definition search_begin (store query : string) (page size : N) (w : world)
  : pending * world :=
  match ensureKey with
  | Throw e => (Settled (Throw e), w)
  | Ok _ =>
      match getApiInfo store with
      | None => (Settled (Throw (Error "store must be coles or woolworths")), w)
      | Some api =>
          let key := cache_key store query page size in
          let '(cached, w1) := getCache key w in
          match cached with
          | Some l => (Settled (Ok l), w1)
          | None =>
              let rq := {| req_host := host api; req_path := path api;
                           req_query := query; req_page := page;
                           req_size := size |} in
              (InFlight key (upstream rq (now w1)),
               {| cache := cache w1; now := now w1; calls := rq :: calls w1 |})
          end
      end
  end.

(** [callStoreSearch] after its [await], run when the reply arrives. *)
Definition search_complete (key : string) (rp : reply) (w : world)
  : res (list Product.t) * world :=
  match outcome rp with
  | Throw e => (Throw e, w)
  | Ok results =>
      match res_map normalize (default [] results) with
      | Throw e => (Throw e, w)
      | Ok out => (Ok out, putCache key out DEFAULT_TTL w)
      end
  end.

(** [await p] *)
Definition await (p : pending) (w : world) : res (list Product.t) * world :=
  match p with
  | Settled r => (r, w)
  | InFlight key rp => search_complete key rp (tick (latency rp) w)
  end.

Definition callStoreSearch (store query : string) (page size : N) (w : world)
  : res (list Product.t) * world :=
  let '(p, w1) := search_begin store query page size w in
  await p w1.

(** [await Promise.all([a, b])] for two promises created in this order:
    the replies are handled in the order they arrive. *)
Definition await_all (pa pb : pending) (w : world)
  : res (list Product.t * list Product.t) * world :=
  match pa, pb with
  | Settled ra, Settled rb => (both ra rb, w)
  | Settled ra, InFlight kb rb =>
      let '(b, w1) := search_complete kb rb (tick (latency rb) w) in
      (both ra b, w1)
  | InFlight ka ra, Settled rb =>
      let '(a, w1) := search_complete ka ra (tick (latency ra) w) in
      (swap_res (both rb a), w1)
  | InFlight ka ra, InFlight kb rb =>
      if (latency ra <=? latency rb)%N then
        let '(a, w1) := search_complete ka ra (tick (latency ra) w) in
        let '(b, w2) := search_complete kb rb (tick (latency rb - latency ra) w1) in
        (both a b, w2)
      else
        let '(b, w1) := search_complete kb rb (tick (latency rb) w) in
        let '(a, w2) := search_complete ka ra (tick (latency ra - latency rb) w1) in
        (swap_res (both b a), w2)
  end.

(** [Promise.all([callStoreSearch('coles', q, 1, 15),
                  callStoreSearch('woolworths', q, 1, 15)])] *)
Definition search_both (q : string) (w : world)
  : res (list Product.t * list Product.t) * world :=
  let '(pa, w1) := search_begin "coles" q 1 15 w in
  let '(pb, w2) := search_begin "woolworths" q 1 15 w1 in
  await_all pa pb w2.

(** [GET /search]; a query parameter is a string or is missing. *)
Definition search_route (store q : option string) (w : world) : response * world :=
  let store := default "coles"%string store in
  match q with
  | None | Some EmptyString =>
      ({| status := 400; content := BError "Missing ?q=" |}, w)
  | Some q =>
      match callStoreSearch store q 1 15 w with
      | (Ok l, w1) => ({| status := 200; content := BList l |}, w1)
      | (Throw e, w1) => (server_error e, w1)
      end
  end.

(** [GET /cheapest] *)
Definition cheapest_route (q : option string) (w : world) : response * world :=
  match q with
  | None | Some EmptyString =>
      ({| status := 400; content := BError "Missing ?q=" |}, w)
  | Some q =>
      match search_both q w with
      | (Ok (coles, woolworths), w1) =>
          let r :=
            res_bind (attribute (cheapest_byItem coles woolworths)) (fun i =>
            res_bind (attribute (cheapest_byKg coles woolworths)) (fun k =>
            Ok {| status := 200; content := BCheapest q i k |})) in
          (match r with Ok resp => resp | Throw e => server_error e end, w1)
      | (Throw e, w1) => (server_error e, w1)
      end
  end.

(** [(req.query.items || '').split(',').map(s => s.trim()).filter(Boolean)] *)
Definition parse_items (items : option string) : list string :=
  List.filter nonempty (List.map trim (split (default EmptyString items))).

(** The [for] loop of [/bulk-cheapest-perkg], with [out] as built so far. *)
Fixpoint bulk_loop (items : list string) (out : list (string * option attributed))
         (w : world) : res (list (string * option attributed)) * world :=
  match items with
  | [] => (Ok out, w)
  | name :: rest =>
      match search_both name w with
      | (Ok (coles, woolworths), w1) =>
          match attribute (bulk_best coles woolworths) with
          | Ok a => bulk_loop rest (out ++ [(name, a)]) w1
          | Throw e => (Throw e, w1)
          end
      | (Throw e, w1) => (Throw e, w1)
      end
  end.

(** [GET /bulk-cheapest-perkg] *)
Definition bulk_route (items : option string) (w : world) : response * world :=
  match parse_items items with
  | [] => ({| status := 400; content := BError "Provide ?items=Flour,Sugar,..." |}, w)
  | names =>
      match bulk_loop names [] w with
      | (Ok out, w1) => ({| status := 200; content := BBulk out |}, w1)
      | (Throw e, w1) => (server_error e, w1)
      end
  end.

End Server.

(* ===================================================================== *)
(** * The specification's reference definitions

    These follow the words of the specification, not the code; the theorems
    below compare the code with them. *)
(* ===================================================================== *)

Module Ref.

(** ** The unit parser (section 4.1) *)

(** The units and what each does to the amount. *)
Definition unit_table : list (string * (num -> num)) :=
  [ ("g"%string, fun amount => div amount (of_Z 1000));
    ("kg"%string, fun amount => amount);
    ("ml"%string, fun amount => div amount (of_Z 1000));
    ("l"%string, fun amount => amount) ].

Fixpoint lookup_unit (u : string) (t : list (string * (num -> num)))
  : option (num -> num) :=
  match t with
  | [] => None
  | (name, f) :: t' => if String.eqb u name then Some f else lookup_unit u t'
  end.

(** [unitToKg(amount, unit)]: by the table, case-insensitive; [null] for
    any other unit. *)
Definition unitToKg (amount : num) (unit : string) : option num :=
  option_map (fun f => f amount) (lookup_unit (toLowerCase unit) unit_table).

Definition known_unit (unit : list ascii) : bool :=
  present (lookup_unit (toLowerCase (string_of_list_ascii unit)) unit_table).

(** The number a text of digits and dots denotes. *)
Definition number_of (t : list ascii) : num :=
  Number_str (Some (string_of_list_ascii t)).

Definition is_x (c : ascii) : bool := Ascii.eqb c "x" || Ascii.eqb c "X".

(** [<amount><unit>] at the start of the text: a run of digits and dots,
    white space, and a word that is a unit. *)
Definition single_at (l : list ascii) : option (list ascii * list ascii) :=
  let amount := take_while digit_or_dot l in
  let unit := take_while is_word (drop_while is_space (drop_while digit_or_dot l)) in
  match amount with
  | [] => None
  | _ :: _ => if known_unit unit then Some (amount, unit) else None
  end.

(** [<N> x <amount><unit>] at the start of the text: a run of digits,
    an [x] with optional white space around it, then amount and unit. *)
Definition multi_at (l : list ascii) : option (list ascii * list ascii * list ascii) :=
  let n := take_while is_digit l in
  match n, drop_while is_space (drop_while is_digit l) with
  | _ :: _, x :: l1 =>
      if is_x x then
        match single_at (drop_while is_space l1) with
        | Some (amount, unit) => Some (n, amount, unit)
        | None => None
        end
      else None
  | _, _ => None
  end.

(** The first place of the text where the pattern is found. *)
Fixpoint leftmost {A : Type} (pattern : list ascii -> option A) (l : list ascii)
  : option A :=
  match pattern l with
  | Some r => Some r
  | None =>
      match l with
      | [] => None
      | _ :: l' => leftmost pattern l'
      end
  end.

(** [parseSizeToKg(text)]: the multi-pack pattern first, then the single
    one, else [null]. *)
Definition parseSizeToKg (text : string) : option num :=
  let l := list_ascii_of_string text in
  match leftmost multi_at l with
  | Some (n, amount, unit) =>
      option_map (mul (number_of n))
                 (unitToKg (number_of amount) (string_of_list_ascii unit))
  | None =>
      match leftmost single_at l with
      | Some (amount, unit) =>
          unitToKg (number_of amount) (string_of_list_ascii unit)
      | None => None
      end
  end.

(** ** The normaliser (section 4.3) *)

(** The first candidate field whose value satisfies [ok], else [dflt]. *)
Fixpoint first_of (ok : jsval -> bool) (obj : gmap string jsval)
         (candidates : list string) (dflt : jsval) : jsval :=
  match candidates with
  | [] => dflt
  | k :: ks => if ok (prop obj k) then prop obj k else first_of ok obj ks dflt
  end.


Definition size_fields : list string := ["productSize"; "packageSize"; "size"]%string.
Definition link_fields : list string := ["productUrl"; "url"; "link"]%string.

(** ** The comparison engine (section 4.6) *)

(** [w] is the record of [l] with the minimum [key], the first of them
    when several have it; [None] when [l] is empty. *)
Definition first_minimum (key : Product.t -> option num) (l : list Product.t)
           (w : option Product.t) : Prop :=
  match w with
  | None => l = []
  | Some r =>
      exists kr l1 l2,
        l = l1 ++ r :: l2 /\ key r = Some kr /\
        Forall (fun p => exists kp, key p = Some kp /\ ltb kr kp = true) l1 /\
        Forall (fun p => exists kp, key p = Some kp /\ SFleb kr kp = true) l2
  end.

(** ** Sections 4.3 and 4.7 as they are written *)


(** Section 4.7 as written: whatever happens to the fetch of one item, the
    request as a whole does not fail and every item has its entry. *)
Definition failures_isolated (RAPIDAPI_KEY : option string)
           (upstream : request -> Z -> reply) (items : option string)
           (w : world) : Prop :=
  parse_items items <> [] ->
  exists report,
    content (fst (bulk_route RAPIDAPI_KEY upstream items w)) = BBulk report /\
    List.map fst report = parse_items items.

End Ref.

(* ===================================================================== *)
(** * Definitions used by the proofs *)
(* ===================================================================== *)

(** ** The matcher *)

Fixpoint consume_all (t : list ascii) (c : ctx) : ctx :=
  match t with
  | [] => c
  | x :: t' => consume_all t' (consume x c)
  end.

Definition last_of (t : list ascii) (p : option ascii) : option ascii :=
  fold_left (fun _ x => Some x) t p.

(** A continuation that cannot go on from a character [p] accepts. *)
Definition stuck_on {R : Type} (p : ascii -> bool)
           (k : list ascii -> ctx -> option R) : Prop :=
  forall x l c, p x = true -> k (x :: l) c = None.

(** The letters a unit is written with, and the other characters. *)
Inductive ukind : Type := UG | UK | UM | UL | UWord | UOther.

Definition kind (x : ascii) : ukind :=
  if Ascii.eqb (lower_char x) "g" then UG
  else if Ascii.eqb (lower_char x) "k" then UK
  else if Ascii.eqb (lower_char x) "m" then UM
  else if Ascii.eqb (lower_char x) "l" then UL
  else if is_word x then UWord else UOther.

Definition is_kind (u : ukind) (x : ascii) : bool :=
  match u, kind x with
  | UG, UG | UK, UK | UM, UM | UL, UL | UWord, UWord | UOther, UOther => true
  | _, _ => false
  end.

Definition unit_start (x : ascii) : bool :=
  is_kind UG x || is_kind UK x || is_kind UM x || is_kind UL x.

(** The two patterns, cut where the proofs cut them. *)
Definition unit_tail (i : nat) : regex := Seq (Group i re_unit) WordBoundary.

Definition spaced_unit (j : nat) : regex := Seq (Star [ASpace]) (unit_tail j).

Definition amount_unit (i j : nat) : regex :=
  Seq (Group i (Plus [ADigit; AChar "."])) (spaced_unit j).

Definition times_tail (i j : nat) : regex :=
  Seq (Star [ASpace]) (Seq (Lit "x") (Seq (Star [ASpace]) (amount_unit i j))).

Definition groups2 (m : match_result) : option (list ascii) * option (list ascii) :=
  (assoc 1%nat m, assoc 2%nat m).

Definition groups3 (m : match_result)
  : option (list ascii) * option (list ascii) * option (list ascii) :=
  (assoc 1%nat m, assoc 2%nat m, assoc 3%nat m).

(** ** The reduction *)

(** The comparison of a [reduce]: by [key], [dflt] for [null]. *)
Definition lt_key (key : Product.t -> option num) (dflt : num)
           (p best : Product.t) : bool :=
  ltb (default dflt (key p)) (default dflt (key best)).

(** A record that takes part: its key is a number other than [NaN]. *)
Definition comparable (key : Product.t -> option num) (p : Product.t) : Prop :=
  exists k, key p = Some k /\ is_nan k = false.

Definition reduce_step (lt : Product.t -> Product.t -> bool)
           (best : option Product.t) (p : Product.t) : option Product.t :=
  match best with
  | None => Some p
  | Some b => if lt p b then Some p else Some b
  end.

(** The numbers of a normalised record: the price is finite, the price per
    kilogram is not [NaN]. *)
Definition well_formed (r : Product.t) : Prop :=
  (forall p, Product.price r = Some p -> isFinite p = true) /\
  (forall v, Product.pricePerKg r = Some v -> is_nan v = false).

(** ** Well-typed records *)

(** A field that holds text when it is there. *)
Definition is_text (v : jsval) : Prop :=
  match v with
  | VStr _ | VUndefined | VNull => True
  | VBool _ | VNum _ => False
  end.

(** A raw record whose size and link fields hold text. *)
Definition raw_ok (obj : gmap string jsval) : Prop :=
  Forall (fun k => is_text (prop obj k)) (Ref.size_fields ++ Ref.link_fields).

Definition url_text (r : Product.t) : Prop := exists u, Product.url r = VStr u.

Definition cache_ok (w : world) : Prop :=
  forall k e, cache w !! k = Some e -> Forall url_text (value e).

(** A promise of a search that goes well: settled with a list, or waiting
    for a reply of [upstream]. *)
Definition pending_ok (upstream : request -> Z -> reply) (p : pending) : Prop :=
  match p with
  | Settled (Ok l) => Forall url_text l
  | Settled (Throw _) => False
  | InFlight _ rp => exists rq t, rp = upstream rq t
  end.


Definition empty_record : Product.t :=
  {| Product.product := VStr ""; Product.size := VStr ""; Product.price := None;
     Product.pricePerKg := None; Product.url := VStr ""; Product.id := VStr "" |}.

Definition coles_api : api_info :=
  {| host := "coles-product-price-api.p.rapidapi.com";
     path := "/coles/product-search" |}.

Definition is_comma (x : ascii) : bool := (code x =? 44)%N.

(** The pieces with a comma between them. *)
Fixpoint join_comma (ps : list (list ascii)) : list ascii :=
  match ps with
  | [] => []
  | [p] => p
  | p :: ps' => p ++ ","%char :: join_comma ps'
  end.

(** ** Sample inputs *)

Definition obj_2kg : gmap string jsval :=
  {[ "price"%string := VNum (of_Z 10); "size"%string := VStr "2kg" ]}.

Definition obj_free : gmap string jsval :=
  {[ "price"%string := VNum (of_Z 0); "size"%string := VStr "1kg" ]}.

Definition obj_0g : gmap string jsval :=
  {[ "price"%string := VNum (of_Z 3); "size"%string := VStr "0g" ]}.

Definition obj_id0 : gmap string jsval :=
  {[ "productId"%string := VNum zero; "id"%string := VStr "A1" ]}.

Definition obj_flour : gmap string jsval :=
  {[ "productName"%string := VStr "Plain Flour"; "price"%string := VStr "$2.50";
     "size"%string := VStr "1kg";
     "url"%string := VStr "https://www.coles.com.au/product/1" ]}.

(** The example of section 8: two records of one provider, one of the
    other. *)
Definition rawA : list (gmap string jsval) :=
  [ {[ "price"%string := VNum (of_Z 5); "size"%string := VStr "200g" ]};
    {[ "price"%string := VNum (of_Z 9); "size"%string := VStr "500g" ]} ].

Definition rawB : list (gmap string jsval) :=
  [ {[ "price"%string := VNum (of_ratio false 45 10); "size"%string := VStr "150g" ]} ].

Definition listA : list Product.t :=
  match res_map normalize rawA with Ok l => l | Throw _ => [] end.

Definition listB : list Product.t :=
  match res_map normalize rawB with Ok l => l | Throw _ => [] end.

(** A provider that answers every query with one record. *)
Definition up_flour (rq : request) (t : Z) : reply :=
  {| latency := 20; outcome := Ok (Some [obj_flour]) |}.

(** A provider that finds nothing. *)
Definition up_empty (rq : request) (t : Z) : reply :=
  {| latency := 20; outcome := Ok (Some []) |}.

(** A provider that fails on the query [Flour] and finds nothing for any
    other. *)
Definition up_flaky (rq : request) (t : Z) : reply :=
  {| latency := 20;
     outcome := if String.eqb (req_query rq) "Flour"
                then Throw (Error "Request failed with status code 503")
                else Ok (Some []) |}.

(** The server as it starts, and a server whose one cache entry expired a
    millisecond ago. *)
Definition w0 : world := {| cache := ∅; now := 0; calls := [] |}.

Definition w_stale : world :=
  {| cache := {[ "k"%string := {| until := 10; value := [] |} ]};
     now := 11; calls := [] |}.

(* ===================================================================== *)
(** * Definitions for the further properties *)
(* ===================================================================== *)

(** The message of [ensureKey]. *)
Definition key_missing : exn :=
  Error "RAPIDAPI_KEY missing (set in Render env vars)".

(** The message of [callStoreSearch] for a store it does not know. *)
Definition store_unknown : exn := Error "store must be coles or woolworths".

(** A request as the routes send it: to the host and path of one of the
    two providers, page 1, 15 results. *)
Definition route_request (q : string) (rq : request) : Prop :=
  req_query rq = q /\ req_page rq = 1%N /\ req_size rq = 15%N /\
  (req_host rq = "coles-product-price-api.p.rapidapi.com"%string /\
   req_path rq = "/coles/product-search"%string \/
   req_host rq = "woolworths-products-api.p.rapidapi.com"%string /\
   req_path rq = "/woolworths/product-search/"%string).

(** The sign bit of a number; [NaN] has none. *)
Definition is_negative (n : num) : bool :=
  match n with
  | S754_zero s | S754_infinity s | S754_finite s _ _ => s
  | S754_nan => false
  end.

Definition obj_minus : gmap string jsval :=
  {[ "price"%string := VStr "-4.50"; "size"%string := VStr "500g" ]}.

(** The exception of [sizeToKg] on a value that has no [match]. *)
Definition no_match_method : exn := TypeError "s.match is not a function".

(** A raw record whose first truthy size candidate is not a text. *)
Definition bad_size (obj : gmap string jsval) : Prop :=
  match Ref.first_of truthy obj Ref.size_fields (VStr "") with
  | VBool _ | VNum _ => True
  | VStr _ | VUndefined | VNull => False
  end.

Definition obj_numeric_size : gmap string jsval :=
  {[ "name"%string := VStr "Oreo"; "price"%string := VNum (of_Z 2);
     "size"%string := VNum (of_Z 133) ]}.

(** A provider whose second record gives its size as a number. *)
Definition up_numeric_size (rq : request) (t : Z) : reply :=
  {| latency := 20; outcome := Ok (Some [obj_flour; obj_numeric_size]) |}.

(** [t] occurs in [s]. *)
Definition occurs_in (t s : string) : Prop :=
  exists a b, s = (a ++ t ++ b)%string.

Definition no_bar (s : string) : Prop :=
  Forall (fun x => x <> "|"%char) (list_ascii_of_string s).

Definition record_with_url (u : jsval) : Product.t :=
  {| Product.product := VStr ""; Product.size := VStr ""; Product.price := None;
     Product.pricePerKg := None; Product.url := u; Product.id := VStr "" |}.

(** A character of an item list that names nothing: a comma or white
    space. *)
Definition is_blank (x : ascii) : bool := is_comma x || is_space x.

(* ===================================================================== *)
(** * The origin check of the CORS middleware *)
(* ===================================================================== *)

Module Cors.

(** The patterns of [allowed] use literal characters, a greedy [*] or [+]
    on a character class, an optional group and [$]; none has a flag, so
    letters match exactly and [$] is the end of the input. *)
Inductive pattern : Type :=
| Lits (s : string)
| Star (c : ascii -> bool)
| Plus (c : ascii -> bool)
| Opt (r : pattern)
| Seq (a b : pattern)
| End_.

(** [.]: any character but a line terminator. *)
Definition dot (x : ascii) : bool := negb ((code x =? 10)%N || (code x =? 13)%N).

Fixpoint strip_prefix (p l : list ascii) : option (list ascii) :=
  match p, l with
  | [], _ => Some l
  | a :: p', b :: l' => if Ascii.eqb a b then strip_prefix p' l' else None
  | _ :: _, [] => None
  end.

(** A greedy run of a class: the longest run first, then shorter ones. *)
Fixpoint run (c : ascii -> bool) (s : list ascii) (k : list ascii -> bool) : bool :=
  match s with
  | [] => k []
  | x :: t => (c x && run c t k) || k s
  end.

(** Backtracking match of [r] at the start of [s], with the continuation
    [k] for what follows. *)
Fixpoint pmatch (r : pattern) (s : list ascii) (k : list ascii -> bool) : bool :=
  match r with
  | Lits l =>
      match strip_prefix (list_ascii_of_string l) s with
      | Some t => k t
      | None => false
      end
  | Star c => run c s k
  | Plus c =>
      match s with
      | x :: t => c x && run c t k
      | [] => false
      end
  | Opt r' => pmatch r' s k || k s
  | Seq a b => pmatch a s (fun t => pmatch b t k)
  | End_ =>
      match s with
      | [] => k []
      | _ :: _ => false
      end
  end.

(** [r.test(s)]: a match at some position, the leftmost tried first. *)
Fixpoint test_from (r : pattern) (s : list ascii) : bool :=
  pmatch r s (fun _ => true) ||
  match s with
  | [] => false
  | _ :: t => test_from r t
  end.

Definition test (r : pattern) (s : string) : bool :=
  test_from r (list_ascii_of_string s).

(** [/http:\/\/localhost(:\d+)?$/] and its [https] twin. *)
Definition localhost (scheme : string) : pattern :=
  Seq (Lits scheme) (Seq (Lits "://localhost")
      (Seq (Opt (Seq (Lits ":") (Plus is_digit))) End_)).

Definition allowed : list pattern :=
  [ Seq (Lits "https://") (Seq (Star dot) (Seq (Lits ".itch.io") End_));
    localhost "http";
    localhost "https" ].

(** The [origin(origin, cb)] callback; the result is the pair of arguments
    given to [cb].  The header is a string or is missing. *)
Definition origin (o : option string) : option exn * bool :=
  match o with
  | None | Some EmptyString => (None, true)
  | Some s =>
      let ok := existsb (fun r => test r s) allowed in
      (if ok then None else Some (Error "CORS blocked"), ok)
  end.

(** What a pattern matches: [matches r s t] when [r] matches at the start
    of [s] and leaves [t]. *)
Fixpoint matches (r : pattern) (s t : list ascii) : Prop :=
  match r with
  | Lits l => s = list_ascii_of_string l ++ t
  | Star c => exists u, s = u ++ t /\ Forall (fun x => c x = true) u
  | Plus c => exists x u, s = x :: u ++ t /\ c x = true /\ Forall (fun x => c x = true) u
  | Opt r' => matches r' s t \/ s = t
  | Seq a b => exists m, matches a s m /\ matches b m t
  | End_ => s = [] /\ t = []
  end.

(** An optional port: nothing, or a colon and one digit or more. *)
Definition port_text (p : list ascii) : Prop :=
  p = [] \/
  exists d ds, p = ":"%char :: d :: ds /\ Forall (fun x => is_digit x = true) (d :: ds).

(** The text ends with [https://], any characters of a line, and
    [.itch.io]. *)
Definition itch_origin (s : string) : Prop :=
  exists pre mid,
    list_ascii_of_string s =
      pre ++ list_ascii_of_string "https://" ++ mid ++ list_ascii_of_string ".itch.io" /\
    Forall (fun x => dot x = true) mid.

(** The text ends with [scheme://localhost] and an optional port. *)
Definition localhost_origin (scheme : string) (s : string) : Prop :=
  exists pre port,
    list_ascii_of_string s =
      pre ++ list_ascii_of_string scheme ++ list_ascii_of_string "://localhost" ++ port /\
    port_text port.

End Cors.

(* ===================================================================== *)
(** * The loop body on a raw result *)
(* ===================================================================== *)

Section Raw.

(** [camelCase(raw, { deep: true })] of the package [camelcase-keys]: the
    record with its keys renamed.  The package is not part of the server;
    what is said of [normalize_raw] holds whatever it returns. *)
Variable camelCase : gmap string jsval -> gmap string jsval.


End Raw.


(** ** Two decimal places *)

(** [v] is [x] rounded to two decimal places.  For a finite [x] below
    [1e21], of magnitude [m * a / b]: [n] is the integer nearest to a
    hundred times the magnitude, the larger one of two, and [v] is the
    number nearest to [n / 100] with the sign of [x].  From [1e21] on every
    number is an integer and [v] is [x]. *)
Definition rounded2 (x v : num) : Prop :=
  match x with
  | S754_nan => v = NaN
  | S754_infinity s => v = S754_infinity s
  | S754_zero _ => v = zero
  | S754_finite s m e =>
      if ge_1e21 m e then v = x
      else
        let a := 2 ^ Z.max 0 e in
        let b := 2 ^ Z.max 0 (- e) in
        exists n,
          - b < 2 * (n * b - 100 * (Z.pos m * a)) <= b /\
          v = of_ratio s n 100
  end.

Definition obj_third : gmap string jsval :=
  {[ "price"%string := VNum (of_Z 1); "size"%string := VStr "3kg" ]}.

Definition obj_eighth : gmap string jsval :=
  {[ "price"%string := VNum (of_Z 1); "size"%string := VStr "8kg" ]}.

(** ** The request of a search at the coles provider *)

Definition coles_request (q : string) : request :=
  {| req_host := "coles-product-price-api.p.rapidapi.com";
     req_path := "/coles/product-search";
     req_query := q; req_page := 1; req_size := 15 |}.

(* ===================================================================== *)
(** * Characters *)
(* ===================================================================== *)

(** A fact about every code unit, checked on each of the 256. *)
Ltac ascii_cases x := destruct x as [[|] [|] [|] [|] [|] [|] [|] [|]].

Ltac char_fact :=
  let x := fresh "x" in
  intros x; ascii_cases x; vm_compute;
  solve [reflexivity | discriminate | intros; discriminate | intros; reflexivity].

Section CharFacts.

Lemma class_digit x : class_matches [ADigit] x = is_digit x.
Proof. unfold class_matches; simpl. apply orb_false_r. Qed.

Lemma class_space x : class_matches [ASpace] x = is_space x.
Proof. unfold class_matches; simpl. apply orb_false_r. Qed.

Lemma class_digit_dot x : class_matches [ADigit; AChar "."] x = digit_or_dot x.
Proof. revert x. char_fact. Qed.

Lemma dot_char x : is_digit x || Ascii.eqb x "." = digit_or_dot x.
Proof. revert x. char_fact. Qed.

Lemma comma_char x : (code x =? 44)%N = true -> x = ","%char.
Proof. revert x. char_fact. Qed.

Lemma lit_x x : lit_matches "x" x = Ref.is_x x.
Proof. revert x. char_fact. Qed.

Lemma kind_lit_g x : lit_matches "g" x = is_kind UG x.
Proof. revert x. char_fact. Qed.

Lemma kind_lit_k x : lit_matches "k" x = is_kind UK x.
Proof. revert x. char_fact. Qed.

Lemma kind_lit_m x : lit_matches "m" x = is_kind UM x.
Proof. revert x. char_fact. Qed.

Lemma kind_lit_l x : lit_matches "l" x = is_kind UL x.
Proof. revert x. char_fact. Qed.

Lemma kind_lower_g x : Ascii.eqb (lower_char x) "g" = is_kind UG x.
Proof. revert x. char_fact. Qed.

Lemma kind_lower_k x : Ascii.eqb (lower_char x) "k" = is_kind UK x.
Proof. revert x. char_fact. Qed.

Lemma kind_lower_m x : Ascii.eqb (lower_char x) "m" = is_kind UM x.
Proof. revert x. char_fact. Qed.

Lemma kind_lower_l x : Ascii.eqb (lower_char x) "l" = is_kind UL x.
Proof. revert x. char_fact. Qed.

Lemma kind_word x : is_word x = negb (is_kind UOther x).
Proof. revert x. char_fact. Qed.

(** The tokens of a size text are made of different characters. *)
Lemma space_not_start x : is_space x = true -> unit_start x = false.
Proof. revert x. char_fact. Qed.

Lemma dd_not_start x : digit_or_dot x = true -> unit_start x = false.
Proof. revert x. char_fact. Qed.

Lemma dd_not_space x : digit_or_dot x = true -> is_space x = false.
Proof. revert x. char_fact. Qed.

Lemma space_not_dd x : is_space x = true -> digit_or_dot x = false.
Proof. revert x. char_fact. Qed.

Lemma digit_not_space x : is_digit x = true -> is_space x = false.
Proof. revert x. char_fact. Qed.

Lemma digit_not_x x : is_digit x = true -> Ref.is_x x = false.
Proof. revert x. char_fact. Qed.

Lemma space_not_x x : is_space x = true -> Ref.is_x x = false.
Proof. revert x. char_fact. Qed.

End CharFacts.

Lemma take_while_ext p q l :
  (forall x, p x = q x) -> take_while p l = take_while q l.
Proof. intros H. induction l as [|x l IH]; simpl; [easy|]. rewrite H, IH. easy. Qed.

Lemma drop_while_ext p q l :
  (forall x, p x = q x) -> drop_while p l = drop_while q l.
Proof. intros H. induction l as [|x l IH]; simpl; [easy|]. rewrite H, IH. easy. Qed.

Lemma drop_while_head p x l : p x = false -> drop_while p (x :: l) = x :: l.
Proof. intros H. simpl. now rewrite H. Qed.

Lemma take_while_head p x l : p x = false -> take_while p (x :: l) = [].
Proof. intros H. simpl. now rewrite H. Qed.

(* ===================================================================== *)
(** * The unit parser: the patterns against the reference *)
(* ===================================================================== *)

(** ** The unit word *)

Lemma known_unit_1 a :
  Ref.known_unit [a] = is_kind UG a || is_kind UL a.
Proof.
  unfold Ref.known_unit. cbn -[Ascii.eqb lower_char].
  rewrite kind_lower_g, kind_lower_k, kind_lower_m, kind_lower_l.
  unfold is_kind. destruct (kind a); reflexivity.
Qed.

Lemma known_unit_2 a b :
  Ref.known_unit [a; b] =
  (is_kind UK a && is_kind UG b) || (is_kind UM a && is_kind UL b).
Proof.
  unfold Ref.known_unit. cbn -[Ascii.eqb lower_char].
  rewrite !kind_lower_g, !kind_lower_k, !kind_lower_m, !kind_lower_l.
  unfold is_kind. destruct (kind a), (kind b); reflexivity.
Qed.

Lemma known_unit_3 a b d w : Ref.known_unit (a :: b :: d :: w) = false.
Proof.
  unfold Ref.known_unit. cbn -[Ascii.eqb lower_char].
  rewrite !kind_lower_g, !kind_lower_k, !kind_lower_m, !kind_lower_l.
  unfold is_kind. destruct (kind a), (kind b); reflexivity.
Qed.

(** No unit starts with a character that is not one of its letters. *)
Lemma known_unit_first x l :
  unit_start x = false -> Ref.known_unit (take_while is_word (x :: l)) = false.
Proof.
  unfold unit_start, is_kind. intros Hx. simpl.
  destruct (is_word x); [|reflexivity].
  destruct (take_while is_word l) as [|b [|d w]];
    rewrite ?known_unit_1, ?known_unit_2, ?known_unit_3; unfold is_kind;
    destruct (kind x); try discriminate; reflexivity.
Qed.

Lemma prev_close i c : prev (close_group i c) = prev c.
Proof. unfold close_group. now destruct (assoc i (opened c)). Qed.

(** ** Greedy runs *)

Section Runs.
Context {R : Type}.
Implicit Types (k : list ascii -> ctx -> option R).

(** Giving back characters never helps when the continuation is stuck on
    them: the greedy run is the only way through. *)
Lemma star_run cs l c k :
  stuck_on (class_matches cs) k ->
  star cs l c k =
  k (drop_while (class_matches cs) l)
    (consume_all (take_while (class_matches cs) l) c).
Proof.
  intros Hk. revert c.
  induction l as [|x l IH]; intros c; simpl; [reflexivity|].
  destruct (class_matches cs x) eqn:Hx; [|reflexivity].
  rewrite IH. simpl.
  destruct (k _ _) eqn:E; [reflexivity|].
  now apply Hk.
Qed.

Lemma plus_run cs l c k :
  stuck_on (class_matches cs) k ->
  rmatch (Plus cs) l c k =
  match take_while (class_matches cs) l with
  | [] => None
  | t => k (drop_while (class_matches cs) l) (consume_all t c)
  end.
Proof.
  intros Hk. destruct l as [|x l]; simpl; [reflexivity|].
  destruct (class_matches cs x) eqn:Hx; [|reflexivity].
  now rewrite star_run.
Qed.

Lemma star_space l c k :
  stuck_on is_space k ->
  rmatch (Star [ASpace]) l c k =
  k (drop_while is_space l) (consume_all (take_while is_space l) c).
Proof.
  intros Hk. simpl. rewrite star_run.
  - now rewrite (take_while_ext _ _ _ class_space), (drop_while_ext _ _ _ class_space).
  - intros x l' c' Hx. apply Hk. now rewrite <- class_space.
Qed.

Lemma plus_digit l c k :
  stuck_on is_digit k ->
  rmatch (Plus [ADigit]) l c k =
  match take_while is_digit l with
  | [] => None
  | t => k (drop_while is_digit l) (consume_all t c)
  end.
Proof.
  intros Hk. rewrite plus_run.
  - now rewrite (take_while_ext _ _ _ class_digit), (drop_while_ext _ _ _ class_digit).
  - intros x l' c' Hx. apply Hk. now rewrite <- class_digit.
Qed.

Lemma plus_digit_dot l c k :
  stuck_on digit_or_dot k ->
  rmatch (Plus [ADigit; AChar "."]) l c k =
  match take_while digit_or_dot l with
  | [] => None
  | t => k (drop_while digit_or_dot l) (consume_all t c)
  end.
Proof.
  intros Hk. rewrite plus_run.
  - now rewrite (take_while_ext _ _ _ class_digit_dot),
      (drop_while_ext _ _ _ class_digit_dot).
  - intros x l' c' Hx. apply Hk. now rewrite <- class_digit_dot.
Qed.

(** ** The pieces of the patterns *)

Ltac finish_unit :=
  cbn -[Ref.known_unit close_group open_group];
  repeat match goal with
         | |- context [match ?x with Some _ => _ | None => _ end] => destruct x
         end;
  reflexivity.

(** The alternatives and the word boundary accept exactly a word that is
    a unit. *)
Lemma unit_tail_run i l c k :
  rmatch (unit_tail i) l c k =
  if Ref.known_unit (take_while is_word l)
  then k (drop_while is_word l)
         (close_group i (consume_all (take_while is_word l) (open_group i c)))
  else None.
Proof.
  destruct l as [|a [|b [|d l]]];
    cbn -[lit_matches is_word Ref.known_unit close_group open_group];
    rewrite ?prev_close; cbn -[lit_matches is_word Ref.known_unit close_group open_group];
    rewrite ?kind_lit_g, ?kind_lit_k, ?kind_lit_m, ?kind_lit_l, ?kind_word.
  - reflexivity.
  - unfold is_kind. destruct (kind a) eqn:Ka; cbn -[Ref.known_unit close_group open_group];
      rewrite ?known_unit_1; unfold is_kind; rewrite ?Ka; try reflexivity; finish_unit.
  - unfold is_kind.
    destruct (kind a) eqn:Ka, (kind b) eqn:Kb; cbn -[Ref.known_unit close_group open_group];
      rewrite ?prev_close; cbn -[Ref.known_unit close_group open_group];
      rewrite ?kind_word; unfold is_kind; rewrite ?Ka, ?Kb;
      cbn -[Ref.known_unit close_group open_group];
      rewrite ?known_unit_1, ?known_unit_2; unfold is_kind; rewrite ?Ka, ?Kb;
      try reflexivity; finish_unit.
  - unfold is_kind.
    destruct (kind a) eqn:Ka, (kind b) eqn:Kb, (kind d) eqn:Kd;
      cbn -[Ref.known_unit close_group open_group];
      rewrite ?prev_close; cbn -[Ref.known_unit close_group open_group];
      rewrite ?kind_word; unfold is_kind; rewrite ?Ka, ?Kb, ?Kd;
      cbn -[Ref.known_unit close_group open_group];
      rewrite ?known_unit_1, ?known_unit_2, ?known_unit_3; unfold is_kind; rewrite ?Ka, ?Kb;
      try reflexivity; finish_unit.
Qed.

(** The unit cannot start at a character [p] accepts. *)
Lemma unit_tail_stuck (p : ascii -> bool) i k :
  (forall x, p x = true -> unit_start x = false) ->
  stuck_on p (fun l c => rmatch (unit_tail i) l c k).
Proof.
  intros Hp x l c Hx. rewrite unit_tail_run.
  now rewrite known_unit_first by auto.
Qed.

Lemma spaced_unit_run j l c k :
  rmatch (spaced_unit j) l c k =
  let l1 := drop_while is_space l in
  if Ref.known_unit (take_while is_word l1)
  then k (drop_while is_word l1)
         (close_group j (consume_all (take_while is_word l1)
            (open_group j (consume_all (take_while is_space l) c))))
  else None.
Proof.
  unfold spaced_unit.
  change (rmatch (Seq ?a ?b) l c k)
    with (rmatch a l c (fun l' c' => rmatch b l' c' k)).
  rewrite star_space by (apply unit_tail_stuck, space_not_start).
  now rewrite unit_tail_run.
Qed.

Lemma spaced_unit_stuck j k :
  stuck_on digit_or_dot (fun l c => rmatch (spaced_unit j) l c k).
Proof.
  intros x l c Hx. rewrite spaced_unit_run. cbv zeta.
  rewrite drop_while_head by now apply dd_not_space.
  now rewrite known_unit_first by now apply dd_not_start.
Qed.

(** The amount, white space and the unit: the single pattern. *)
Lemma amount_unit_run i j l c k :
  rmatch (amount_unit i j) l c k =
  match Ref.single_at l with
  | Some (amount, unit) =>
      let l1 := drop_while digit_or_dot l in
      k (drop_while is_word (drop_while is_space l1))
        (close_group j (consume_all unit
           (open_group j (consume_all (take_while is_space l1)
              (close_group i (consume_all amount (open_group i c)))))))
  | None => None
  end.
Proof.
  unfold amount_unit, Ref.single_at.
  change (rmatch (Seq (Group i ?a) ?b) l c k)
    with (rmatch a l (open_group i c)
            (fun l' c' => rmatch b l' (close_group i c') k)).
  rewrite plus_digit_dot
    by (intros x l' c' Hx; now apply spaced_unit_stuck).
  destruct (take_while digit_or_dot l) as [|a0 am]; [reflexivity|].
  rewrite spaced_unit_run. cbv zeta.
  destruct (Ref.known_unit _); reflexivity.
Qed.

Lemma amount_unit_stuck i j k :
  stuck_on is_space (fun l c => rmatch (amount_unit i j) l c k).
Proof.
  intros x l c Hx. rewrite amount_unit_run. unfold Ref.single_at.
  now rewrite take_while_head by now apply space_not_dd.
Qed.

Lemma lit_x_stuck (p : ascii -> bool) (r : regex) k :
  (forall x, p x = true -> Ref.is_x x = false) ->
  stuck_on p (fun l c => rmatch (Seq (Lit "x") r) l c k).
Proof.
  intros Hp x l c Hx. simpl. now rewrite lit_x, Hp.
Qed.

(** What follows the count in the multi-pack pattern. *)
Lemma times_tail_run i j l c k :
  rmatch (times_tail i j) l c k =
  match drop_while is_space l with
  | x :: l1 =>
      if Ref.is_x x then
        rmatch (amount_unit i j) (drop_while is_space l1)
          (consume_all (take_while is_space l1)
             (consume x (consume_all (take_while is_space l) c))) k
      else None
  | [] => None
  end.
Proof.
  unfold times_tail.
  change (rmatch (Seq ?a ?b) l c k)
    with (rmatch a l c (fun l' c' => rmatch b l' c' k)).
  rewrite star_space by (apply lit_x_stuck, space_not_x).
  destruct (drop_while is_space l) as [|x l1]; [reflexivity|].
  change (rmatch (Seq (Lit "x") ?b) (x :: l1) ?c0 k)
    with (if lit_matches "x" x
          then rmatch b l1 (consume x c0) k else None).
  rewrite lit_x. destruct (Ref.is_x x); [|reflexivity].
  change (rmatch (Seq ?a ?b) l1 ?c0 k)
    with (rmatch a l1 c0 (fun l' c' => rmatch b l' c' k)).
  now rewrite star_space by apply amount_unit_stuck.
Qed.

Lemma times_tail_stuck i j k :
  stuck_on is_digit (fun l c => rmatch (times_tail i j) l c k).
Proof.
  intros x l c Hx. rewrite times_tail_run.
  rewrite drop_while_head by now apply digit_not_space.
  now rewrite digit_not_x.
Qed.

End Runs.

(** ** The groups of a match *)

Lemma open_group_ctx i p o cs :
  open_group i (Ctx p o cs) = Ctx p ((i, []) :: o) cs.
Proof. reflexivity. Qed.

Lemma close_group_ctx i p o cs :
  close_group i (Ctx p o cs) =
  match assoc i o with
  | Some t => Ctx p (remove_key i o) ((i, t) :: cs)
  | None => Ctx p o cs
  end.
Proof. reflexivity. Qed.

Lemma consume_ctx x p o cs :
  consume x (Ctx p o cs) =
  Ctx (Some x) (List.map (fun it => (fst it, snd it ++ [x])) o) cs.
Proof. reflexivity. Qed.

Lemma consume_all_ctx t p o cs :
  consume_all t (Ctx p o cs) =
  Ctx (last_of t p) (List.map (fun it => (fst it, snd it ++ t)) o) cs.
Proof.
  revert p o. induction t as [|x t IH]; intros p o; simpl.
  - f_equal. induction o as [|[i u] o IHo]; simpl; [reflexivity|].
    now rewrite app_nil_r, <- IHo.
  - unfold consume; simpl. rewrite IH. unfold last_of; simpl. f_equal.
    rewrite List.map_map. apply List.map_ext. intros [i u]; simpl.
    now rewrite <- app_assoc.
Qed.

Ltac ctx_norm :=
  repeat (rewrite ?open_group_ctx, ?consume_ctx, ?consume_all_ctx, ?close_group_ctx;
          cbn [consume prev opened caps assoc remove_key Nat.eqb List.map fst snd]).

(** At one start, the single pattern matches where the reference finds
    amount and unit, and its groups hold them. *)
Lemma match_at_single p l :
  option_map groups2 (match_at re_single p l) =
  option_map (fun au => (Some (fst au), Some (snd au))) (Ref.single_at l).
Proof.
  unfold match_at.
  change (rmatch (Group 0 re_single) l ?c ?k)
    with (rmatch (amount_unit 1 2) l (open_group 0 c)
            (fun l' c' => k l' (close_group 0 c'))).
  rewrite amount_unit_run.
  destruct (Ref.single_at l) as [[a u]|]; [|reflexivity].
  cbv zeta. ctx_norm. reflexivity.
Qed.

Lemma match_at_multi p l :
  option_map groups3 (match_at re_multi p l) =
  option_map (fun r => (Some (fst (fst r)), Some (snd (fst r)), Some (snd r)))
             (Ref.multi_at l).
Proof.
  unfold match_at.
  change (rmatch (Group 0 re_multi) l ?c ?k)
    with (rmatch (Plus [ADigit]) l (open_group 1 (open_group 0 c))
            (fun l1 c1 => rmatch (times_tail 2 3) l1 (close_group 1 c1)
               (fun l' c' => k l' (close_group 0 c')))).
  rewrite plus_digit by (intros x l' c' Hx; now apply times_tail_stuck).
  unfold Ref.multi_at.
  destruct (take_while is_digit l) as [|d n]; [reflexivity|].
  rewrite times_tail_run.
  destruct (drop_while is_space (drop_while is_digit l)) as [|x l1]; [reflexivity|].
  destruct (Ref.is_x x); [|reflexivity].
  rewrite amount_unit_run.
  destruct (Ref.single_at _) as [[a u]|]; [|reflexivity].
  cbv zeta. ctx_norm. reflexivity.
Qed.

(** The search for the leftmost match and the search of the reference go
    through the same starts. *)
Lemma search_leftmost {A B : Type} (r : regex) (f : list ascii -> option A)
      (g : match_result -> B) (h : A -> B) :
  (forall p l, option_map g (match_at r p l) = option_map h (f l)) ->
  forall p l, option_map g (search r p l) = option_map h (Ref.leftmost f l).
Proof.
  intros H p l. revert p. induction l as [|x l IH]; intros p; simpl;
    specialize (H p); [specialize (H []) | specialize (H (x :: l))].
  - destruct (match_at r p []), (f []); simpl in *; congruence.
  - destruct (match_at r p (x :: l)), (f (x :: l)); simpl in *;
      first [congruence | apply IH].
Qed.

Lemma leftmost_found {A : Type} (f : list ascii -> option A) l r :
  Ref.leftmost f l = Some r -> exists l', f l' = Some r.
Proof.
  induction l as [|x l IH]; simpl.
  - destruct (f []) eqn:E; [|discriminate]. intros [= <-]. eauto.
  - destruct (f (x :: l)) eqn:E; [intros [= <-]; eauto | apply IH].
Qed.

Lemma unitToKg_ref q u : unitToKg q (Some u) = Ref.unitToKg q u.
Proof.
  unfold unitToKg, Ref.unitToKg. simpl.
  repeat match goal with |- context [String.eqb ?a ?b] => destruct (String.eqb a b) end;
    reflexivity.
Qed.

Lemma known_unit_some q u :
  Ref.known_unit u = true ->
  exists v, Ref.unitToKg q (string_of_list_ascii u) = Some v.
Proof.
  unfold Ref.known_unit, Ref.unitToKg.
  destruct (Ref.lookup_unit _ _); [simpl; eauto | discriminate].
Qed.

Lemma single_at_unit l a u : Ref.single_at l = Some (a, u) -> Ref.known_unit u = true.
Proof.
  unfold Ref.single_at. destruct (take_while digit_or_dot l); [discriminate|].
  destruct (Ref.known_unit _) eqn:E; [|discriminate]. now intros [= _ <-].
Qed.

Lemma multi_at_unit l n a u : Ref.multi_at l = Some (n, a, u) -> Ref.known_unit u = true.
Proof.
  unfold Ref.multi_at. destruct (take_while is_digit l); [discriminate|].
  destruct (drop_while _ _) as [|x l1]; [discriminate|].
  destruct (Ref.is_x x); [|discriminate].
  destruct (Ref.single_at _) as [[a' u']|] eqn:E; [|discriminate].
  intros [= _ _ <-]. now apply single_at_unit in E.
Qed.

(** The texts the code hands to [Number] hold digits and dots only. *)
Lemma take_while_all p l : Forall (fun x => p x = true) (take_while p l).
Proof.
  induction l as [|x l IH]; simpl; [constructor|].
  destruct (p x) eqn:E; constructor; assumption.
Qed.

Lemma single_at_texts l a u :
  Ref.single_at l = Some (a, u) -> Forall (fun x => digit_or_dot x = true) a.
Proof.
  unfold Ref.single_at.
  pose proof (take_while_all digit_or_dot l) as H.
  destruct (take_while digit_or_dot l); [discriminate|].
  destruct (Ref.known_unit _); [|discriminate]. now intros [= <- _].
Qed.

Lemma multi_at_texts l n a u :
  Ref.multi_at l = Some (n, a, u) ->
  Forall (fun x => is_digit x = true) n /\ Forall (fun x => digit_or_dot x = true) a.
Proof.
  unfold Ref.multi_at.
  pose proof (take_while_all is_digit l) as H.
  destruct (take_while is_digit l); [discriminate|].
  destruct (drop_while _ _) as [|x l1]; [discriminate|].
  destruct (Ref.is_x x); [|discriminate].
  destruct (Ref.single_at _) as [[a' u']|] eqn:E; [|discriminate].
  intros [= <- <- _]. split; [exact H|]. now apply single_at_texts in E.
Qed.

(** The code computes what the reference computes, on every text. *)
Lemma sizeToKg_ref s : sizeToKg s = Ref.parseSizeToKg s.
Proof.
  unfold sizeToKg, Ref.parseSizeToKg, str_match.
  set (l := list_ascii_of_string s).
  pose proof (search_leftmost _ _ _ _ match_at_multi None l) as Hm.
  pose proof (search_leftmost _ _ _ _ match_at_single None l) as Hs.
  destruct (Ref.leftmost Ref.multi_at l) as [[[n a] u]|] eqn:Em.
  - destruct (search re_multi None l) as [m|]; [|discriminate].
    simpl in Hm. injection Hm as H1 H2 H3.
    unfold group. rewrite H1, H2, H3. cbn [option_map].
    rewrite unitToKg_ref.
    apply leftmost_found in Em as [l' Em]. apply multi_at_unit in Em.
    destruct (known_unit_some (Ref.number_of a) u Em) as [v Hv].
    unfold Ref.number_of in *. rewrite Hv. reflexivity.
  - destruct (search re_multi None l) as [m|]; [discriminate|].
    destruct (Ref.leftmost Ref.single_at l) as [[a u]|] eqn:Es.
    + destruct (search re_single None l) as [m|]; [|discriminate].
      simpl in Hs. injection Hs as H1 H2.
      unfold group. rewrite H1, H2. cbn [option_map]. now rewrite unitToKg_ref.
    + destruct (search re_single None l) as [m|]; [discriminate|reflexivity].
Qed.

(* ===================================================================== *)
(** * Numbers: the order, and what is never [NaN] *)
(* ===================================================================== *)

Ltac compare_cases :=
  repeat match goal with
         | H : context [Pos.compare_cont Eq ?a ?b] |- _ =>
             change (Pos.compare_cont Eq a b) with (Pos.compare a b) in H
         | |- context [Pos.compare_cont Eq ?a ?b] =>
             change (Pos.compare_cont Eq a b) with (Pos.compare a b)
         end;
  repeat match goal with
         | H : context [Z.compare ?a ?b] |- _ => destruct (Z.compare_spec a b)
         | |- context [Z.compare ?a ?b] => destruct (Z.compare_spec a b)
         | H : context [Pos.compare ?a ?b] |- _ => destruct (Pos.compare_spec a b)
         | |- context [Pos.compare ?a ?b] => destruct (Pos.compare_spec a b)
         end;
  simpl in *; try discriminate; try reflexivity; try lia.

Ltac float_cases a := destruct a as [[|]|[|]| |[|] ? ?].

Lemma ltb_trans a b c : ltb a b = true -> ltb b c = true -> ltb a c = true.
Proof.
  unfold ltb, SFltb.
  float_cases a; float_cases b; try discriminate; float_cases c;
    simpl; try discriminate; try reflexivity; intros; compare_cases.
Qed.

(** Numbers other than [NaN] are totally ordered: what is not below is at
    least as large. *)
Lemma ltb_neg_trans a b c :
  is_nan b = false -> ltb a b = false -> ltb b c = false -> ltb a c = false.
Proof.
  unfold ltb, SFltb.
  float_cases a; float_cases b; try discriminate; float_cases c;
    simpl; try discriminate; try reflexivity; intros; compare_cases.
Qed.

Lemma leb_of_not_ltb a b :
  is_nan a = false -> is_nan b = false -> ltb a b = false -> SFleb b a = true.
Proof.
  unfold ltb, SFltb, SFleb.
  float_cases a; float_cases b;
    simpl; try discriminate; try reflexivity; intros; compare_cases.
Qed.

Lemma shr_1_nonneg mrs : 0 <= shr_m mrs -> 0 <= shr_m (shr_1 mrs).
Proof.
  destruct mrs as [m r s]; simpl. destruct m as [|[p|p|]|[p|p|]]; simpl; lia.
Qed.

Lemma iter_shr_1_nonneg n mrs :
  0 <= shr_m mrs -> 0 <= shr_m (SpecFloat.iter_pos shr_1 n mrs).
Proof.
  revert mrs. induction n as [n IH|n IH|]; intros mrs H; simpl.
  - apply IH, IH. now apply shr_1_nonneg.
  - now apply IH, IH.
  - now apply shr_1_nonneg.
Qed.

Lemma shr_fexp_nonneg m e l :
  0 <= m -> 0 <= shr_m (fst (shr_fexp prec emax m e l)).
Proof.
  intros H. unfold shr_fexp, shr.
  assert (H0 : 0 <= shr_m (shr_record_of_loc m l))
    by (destruct l as [|[]]; simpl; exact H).
  destruct (fexp prec emax (Zdigits2 m + e) - e); simpl; auto.
  now apply iter_shr_1_nonneg.
Qed.

Lemma round_nearest_even_nonneg m l : 0 <= m -> 0 <= round_nearest_even m l.
Proof.
  intros H. destruct l as [|[]]; simpl; try lia. destruct (Z.even m); lia.
Qed.

(** Rounding a non-negative mantissa never yields [NaN]. *)
Lemma binary_round_aux_not_nan s m e l :
  0 <= m -> is_nan (binary_round_aux prec emax s m e l) = false.
Proof.
  intros H. unfold binary_round_aux.
  pose proof (shr_fexp_nonneg m e l H) as H1.
  destruct (shr_fexp prec emax m e l) as [mrs' e']. simpl in H1.
  pose proof (shr_fexp_nonneg _ e' loc_Exact
                (round_nearest_even_nonneg _ (loc_of_shr_record mrs') H1)) as H2.
  destruct (shr_fexp prec emax _ e' loc_Exact) as [mrs'' e'']. simpl in H2.
  destruct (shr_m mrs'') as [|p|p]; [reflexivity| |lia].
  now destruct (e'' <=? emax - prec).
Qed.

Lemma div_core_nonneg m1 e1 m2 e2 :
  0 <= m1 -> 0 < m2 ->
  0 <= fst (fst (SFdiv_core_binary prec emax m1 e1 m2 e2)).
Proof.
  intros H1 H2. unfold SFdiv_core_binary.
  set (s := e1 - e2 - _).
  set (m' := match s with Z0 => m1 | Zpos _ => Z.shiftl m1 s | Zneg _ => 0 end).
  assert (Hm : 0 <= m').
  { subst m'. destruct s; try lia. now apply Z.shiftl_nonneg. }
  pose proof (Z.div_pos m' m2 Hm H2) as Hq. unfold Z.div in Hq.
  destruct (Z.div_eucl m' m2) as [q r]. exact Hq.
Qed.

Lemma of_ratio_not_nan s m d : 0 <= m -> 0 < d -> is_nan (of_ratio s m d) = false.
Proof.
  intros Hm Hd. unfold of_ratio. destruct m as [|p|p]; [reflexivity| |lia].
  pose proof (div_core_nonneg (Z.pos p) 0 d 0 Hm Hd) as H.
  destruct (SFdiv_core_binary prec emax (Z.pos p) 0 d 0) as [[q e] l].
  now apply binary_round_aux_not_nan.
Qed.

(** A finite number divided by a number other than zero and [NaN] is not
    [NaN]. *)
Lemma div_not_nan p k :
  isFinite p = true -> Num.truthy k = true -> is_nan (div p k) = false.
Proof.
  unfold div. destruct p as [sp|sp| |sp mp ep], k as [sk|sk| |sk mk ek];
    simpl; try discriminate; try reflexivity; intros _ _.
  pose proof (div_core_nonneg (Z.pos mp) ep (Z.pos mk) ek) as H.
  destruct (SFdiv_core_binary prec emax (Z.pos mp) ep (Z.pos mk) ek) as [[q e] l].
  apply binary_round_aux_not_nan, H; lia.
Qed.

(** ** Two fraction digits *)

Lemma scaled2_exact m e : 0 <= e -> scaled2 m e = 100 * (Z.pos m * 2 ^ e).
Proof. intros H. unfold scaled2. apply Z.leb_le in H. rewrite H. lia. Qed.

(** Below the point, [scaled2 m e] is the integer nearest to
    [100 * m / 2 ^ (- e)], the larger one of two. *)
Lemma scaled2_nearest m e :
  e < 0 ->
  - 2 ^ (- e) < 2 * (scaled2 m e * 2 ^ (- e) - 100 * Z.pos m) <= 2 ^ (- e).
Proof.
  intros H. unfold scaled2.
  destruct (0 <=? e) eqn:E; [apply Z.leb_le in E; lia|].
  replace (1 - e) with (Z.succ (- e)) by lia.
  rewrite Z.pow_succ_r by lia.
  set (d := 2 ^ (- e)). assert (Hd : 0 < d) by (apply Z.pow_pos_nonneg; lia).
  set (a := 200 * Z.pos m + d).
  pose proof (Z.div_mod a (2 * d) ltac:(lia)) as Hdm.
  pose proof (Z.mod_pos_bound a (2 * d) ltac:(lia)) as Hb.
  subst a. nia.
Qed.

Lemma scaled2_nonneg m e : 0 <= scaled2 m e.
Proof.
  unfold scaled2. destruct (0 <=? e) eqn:E.
  - apply Z.leb_le in E. apply Z.mul_nonneg_nonneg; [lia|].
    now apply Z.pow_nonneg.
  - apply Z.leb_gt in E. apply Z.div_pos.
    + assert (0 <= 2 ^ (- e)) by (apply Z.pow_nonneg; lia). lia.
    + apply Z.pow_pos_nonneg; lia.
Qed.

(** [+x.toFixed(2)] is [NaN] for [NaN] only. *)
Lemma round2_not_nan x :
  is_nan x = false -> is_nan (unary_plus (toFixed2 x)) = false.
Proof.
  destruct x as [s|s| |s m e]; simpl; try easy. intros _.
  destruct (ge_1e21 m e); simpl; [reflexivity|].
  apply of_ratio_not_nan; [apply scaled2_nonneg | lia].
Qed.

(* ===================================================================== *)
(** * The normaliser *)
(* ===================================================================== *)

(** What [normalize] returns when it returns. *)
Lemma normalize_inv obj r :
  normalize obj = Ok r ->
  exists kg,
    sizeToKg_call (Product.size r) = Ok kg /\
    Product.pricePerKg r = pricePerKg_of kg (Product.price r) /\
    Product.price r =
      toNumber (js_coalesce (js_coalesce (prop obj "currentPrice") (prop obj "price"))
                            (prop obj "Price")).
Proof.
  unfold normalize.
  destruct (sizeToKg_call _) as [kg|e] eqn:E; simpl; [|discriminate].
  intros [= <-]. simpl. eauto.
Qed.

Lemma sizeToKg_call_some v k :
  sizeToKg_call v = Ok (Some k) -> exists s, v = VStr s /\ sizeToKg s = Some k.
Proof.
  destruct v as [| |b|n|s]; cbn [sizeToKg_call]; try discriminate.
  intros [= H]. eauto.
Qed.

Lemma pricePerKg_of_some kg price v :
  pricePerKg_of kg price = Some v ->
  exists k p, kg = Some k /\ price = Some p /\
              Num.truthy k = true /\ Num.truthy p = true /\
              v = unary_plus (toFixed2 (div p k)).
Proof.
  unfold pricePerKg_of. destruct kg as [k|], price as [p|]; try discriminate.
  simpl. destruct (Num.truthy k) eqn:Hk, (Num.truthy p) eqn:Hp; try discriminate.
  intros [= <-]. exists k, p. auto.
Qed.

Lemma toNumber_finite v n : toNumber v = Some n -> isFinite n = true.
Proof.
  unfold toNumber. destruct (nullish v); [discriminate|].
  match goal with |- (if isFinite ?x then _ else _) = _ -> _ =>
    destruct (isFinite x) eqn:E end; [|discriminate].
  now intros [= <-].
Qed.


Lemma isFinite_not_nan n : isFinite n = true -> is_nan n = false.
Proof. now destruct n. Qed.

Lemma normalize_well_formed obj r : normalize obj = Ok r -> well_formed r.
Proof.
  intros H. destruct (normalize_inv _ _ H) as (kg & _ & Hk & Hp). split.
  - intros p Hpr. rewrite Hp in Hpr. now apply toNumber_finite in Hpr.
  - intros v Hv. rewrite Hk in Hv.
    apply pricePerKg_of_some in Hv as (k & p & -> & Hpr & Tk & Tp & ->).
    apply round2_not_nan, div_not_nan; [|exact Tk].
    rewrite Hp in Hpr. now apply toNumber_finite in Hpr.
Qed.

Lemma res_map_Forall {A B : Type} (f : A -> res B) l l' :
  res_map f l = Ok l' -> Forall (fun b => exists a, f a = Ok b) l'.
Proof.
  revert l'. induction l as [|a l IH]; intros l'; simpl.
  - intros [= <-]. constructor.
  - destruct (f a) as [b|e] eqn:E; simpl; [|discriminate].
    destruct (res_map f l) as [bs|e]; simpl; [|discriminate].
    intros [= <-]. constructor; eauto.
Qed.

Lemma strip_chars s :
  list_ascii_of_string (strip_non_numeric s) =
  List.filter digit_or_dot (list_ascii_of_string s).
Proof. unfold strip_non_numeric. apply list_ascii_of_string_of_list_ascii. Qed.

(** What [parseFloat] is given holds digits and dots only. *)
Lemma strip_only_numeric s :
  Forall (fun x => digit_or_dot x = true)
         (list_ascii_of_string (strip_non_numeric s)).
Proof.
  rewrite strip_chars. apply List.Forall_forall. intros x Hx.
  now apply filter_In in Hx.
Qed.

(** ** The candidate fields *)

Lemma or3_first obj k1 k2 k3 d :
  js_or (js_or (js_or (prop obj k1) (prop obj k2)) (prop obj k3)) d =
  Ref.first_of truthy obj [k1; k2; k3] d.
Proof.
  unfold js_or; simpl.
  destruct (truthy (prop obj k1)) eqn:E1; rewrite ?E1; [reflexivity|].
  destruct (truthy (prop obj k2)) eqn:E2; rewrite ?E2; reflexivity.
Qed.



(* ===================================================================== *)
(** * The reduction *)
(* ===================================================================== *)

Section Reduce.
Variable key : Product.t -> option num.
Variable dflt : num.

Lemma lt_key_trans a b c :
  lt_key key dflt a b = true -> lt_key key dflt b c = true ->
  lt_key key dflt a c = true.
Proof. apply ltb_trans. Qed.

Lemma lt_key_neg_trans a b c :
  comparable key b -> lt_key key dflt a b = false ->
  lt_key key dflt b c = false -> lt_key key dflt a c = false.
Proof.
  intros (k & Hk & Hn). unfold lt_key. rewrite Hk. simpl.
  now apply ltb_neg_trans.
Qed.

(** The invariant of the reduction: the best record so far is strictly
    below every record before it and not above any record after it. *)
Lemma fold_best l : forall l1 r l2,
  Forall (comparable key) (l1 ++ r :: l2) ->
  Forall (comparable key) l ->
  Forall (fun p => lt_key key dflt r p = true) l1 ->
  Forall (fun p => lt_key key dflt p r = false) l2 ->
  exists l1' r' l2',
    fold_left (reduce_step (lt_key key dflt)) l (Some r) = Some r' /\
    (l1 ++ r :: l2) ++ l = l1' ++ r' :: l2' /\
    Forall (fun p => lt_key key dflt r' p = true) l1' /\
    Forall (fun p => lt_key key dflt p r' = false) l2'.
Proof.
  induction l as [|p l IH]; intros l1 r l2 Hc Hl H1 H2.
  - exists l1, r, l2. rewrite app_nil_r. auto.
  - apply Forall_cons in Hl as [Hp Hl]. simpl.
    destruct (lt_key key dflt p r) eqn:E.
    + destruct (IH (l1 ++ r :: l2) p []) as (l1' & r' & l2' & Hf & He & Ha & Hb).
      * apply Forall_app. split; [exact Hc|]. now constructor.
      * exact Hl.
      * apply Forall_app. split; [|constructor].
        -- eapply List.Forall_impl; [|exact H1]. intros q Hq. simpl in Hq.
           now apply lt_key_trans with r.
        -- exact E.
        -- apply List.Forall_forall. intros q Hq.
           destruct (lt_key key dflt p q) eqn:Eq; [reflexivity|].
           assert (Hcq : comparable key q).
           { apply Forall_app in Hc as [_ Hc]. apply Forall_cons in Hc as [_ Hc].
             rewrite List.Forall_forall in Hc. now apply Hc. }
           rewrite List.Forall_forall in H2.
           rewrite (lt_key_neg_trans p q r Hcq Eq (H2 q Hq)) in E. discriminate.
      * constructor.
      * exists l1', r', l2'. repeat split; auto.
        rewrite <- He. now rewrite <- !app_assoc.
    + destruct (IH l1 r (l2 ++ [p])) as (l1' & r' & l2' & Hf & He & Ha & Hb).
      * rewrite app_comm_cons, app_assoc. apply Forall_app. split; [exact Hc|].
        now constructor.
      * exact Hl.
      * exact H1.
      * apply Forall_app. split; [exact H2|]. now constructor.
      * exists l1', r', l2'. repeat split; auto.
        rewrite <- He. rewrite <- !app_assoc. simpl. now rewrite <- app_assoc.
Qed.

(** The reduction returns the first record with the minimum key. *)
Lemma reduce_best_minimum l :
  Forall (comparable key) l ->
  Ref.first_minimum key l (reduce_best (lt_key key dflt) l).
Proof.
  intros Hl. unfold reduce_best.
  change (fun best p => match best with
                        | None => Some p
                        | Some b => if lt_key key dflt p b then Some p else Some b
                        end) with (reduce_step (lt_key key dflt)).
  destruct l as [|r l]; [reflexivity|].
  apply Forall_cons in Hl as [Hr Hl]. simpl.
  destruct (fold_best l [] r []) as (l1 & w & l2 & Hf & He & Ha & Hb);
    try constructor; auto.
  rewrite Hf. simpl in He.
  assert (Hall : Forall (comparable key) (l1 ++ w :: l2))
    by (rewrite <- He; now constructor).
  apply Forall_app in Hall as [Hc1 Hall]. apply Forall_cons in Hall as [Hw Hc2].
  destruct Hw as (kw & Hkw & Hnw).
  exists kw, l1, l2. repeat split; auto.
  - rewrite List.Forall_forall in *. intros p Hp.
    destruct (Hc1 p Hp) as (kp & Hkp & Hnp). exists kp. split; [exact Hkp|].
    specialize (Ha p Hp). simpl in Ha. unfold lt_key in Ha.
    now rewrite Hkw, Hkp in Ha.
  - rewrite List.Forall_forall in *. intros p Hp.
    destruct (Hc2 p Hp) as (kp & Hkp & Hnp). exists kp. split; [exact Hkp|].
    specialize (Hb p Hp). simpl in Hb. unfold lt_key in Hb.
    rewrite Hkw, Hkp in Hb. simpl in Hb.
    now apply leb_of_not_ltb.
Qed.

End Reduce.

Lemma fold_step_in (lt : Product.t -> Product.t -> bool) l : forall b w,
  fold_left (reduce_step lt) l b = Some w -> b = Some w \/ In w l.
Proof.
  induction l as [|p l IH]; intros b w; simpl; [auto|].
  intros H. apply IH in H as [H|H]; [|auto].
  destruct b as [b|]; simpl in H; [destruct (lt p b)|]; injection H as <-; auto.
Qed.

Lemma reduce_best_in lt l w : reduce_best lt l = Some w -> In w l.
Proof.
  unfold reduce_best.
  change (fun best p => match best with
                        | None => Some p
                        | Some b => if lt p b then Some p else Some b
                        end) with (reduce_step lt).
  intros H. apply fold_step_in in H as [H|H]; [discriminate|exact H].
Qed.

Lemma filter_comparable_price l :
  Forall well_formed l ->
  Forall (comparable Product.price) (List.filter has_price l).
Proof.
  intros H. apply List.Forall_forall. intros p Hp.
  apply filter_In in Hp as [Hin Hp]. rewrite List.Forall_forall in H.
  destruct (H p Hin) as [Hf _]. unfold has_price, present in Hp.
  destruct (Product.price p) as [k|] eqn:E; [|discriminate].
  exists k. split; [exact E|]. now apply isFinite_not_nan, Hf.
Qed.

Lemma filter_comparable_perKg l :
  Forall well_formed l ->
  Forall (comparable Product.pricePerKg) (List.filter has_perKg l).
Proof.
  intros H. apply List.Forall_forall. intros p Hp.
  apply filter_In in Hp as [Hin Hp]. rewrite List.Forall_forall in H.
  destruct (H p Hin) as [_ Hf]. unfold has_perKg, present in Hp.
  destruct (Product.pricePerKg p) as [k|] eqn:E; [|discriminate].
  exists k. split; [exact E|]. now apply Hf.
Qed.

Lemma Forall_filter_keep {A : Type} (P : A -> Prop) f (l : list A) :
  Forall P l -> Forall P (List.filter f l).
Proof.
  rewrite !List.Forall_forall. intros H x Hx. apply filter_In in Hx as [Hx _]. auto.
Qed.

(* ===================================================================== *)
(** * The cache and the provider client *)
(* ===================================================================== *)

Lemma getCache_expired k w e :
  cache w !! k = Some e -> until e < now w ->
  getCache k w = (None, with_cache (delete k (cache w)) w).
Proof.
  intros H Hlt. unfold getCache. rewrite H.
  destruct (until e <? now w) eqn:E; [reflexivity|]. apply Z.ltb_ge in E. lia.
Qed.

Lemma getCache_fresh k w e :
  cache w !! k = Some e -> now w <= until e ->
  getCache k w = (Some (value e), w).
Proof.
  intros H Hle. unfold getCache. rewrite H.
  destruct (until e <? now w) eqn:E; [|reflexivity]. apply Z.ltb_lt in E. lia.
Qed.

Lemma getCache_absent k w : cache w !! k = None -> getCache k w = (None, w).
Proof. intros H. unfold getCache. now rewrite H. Qed.

Section Client.
Variable RAPIDAPI_KEY : option string.
Variable upstream : request -> Z -> reply.

(** After a search that succeeded the cache holds its list under the key;
    the search sent at most one request; and a search with the same
    arguments before the entry expires answers from the cache and leaves
    the world, the sent requests included, as it is. *)
Lemma search_then_cached store query page size w out w1 :
  callStoreSearch RAPIDAPI_KEY upstream store query page size w = (Ok out, w1) ->
  exists e,
    cache w1 !! cache_key store query page size = Some e /\
    value e = out /\
    (calls w1 = calls w \/
     (exists rq, calls w1 = rq :: calls w) /\ until e = now w1 + DEFAULT_TTL) /\
    forall d, now w1 + Z.of_N d <= until e ->
      callStoreSearch RAPIDAPI_KEY upstream store query page size (tick d w1) =
      (Ok out, tick d w1).
Proof.
  unfold callStoreSearch, search_begin.
  destruct (ensureKey RAPIDAPI_KEY) as [[]|e0]; [|discriminate].
  destruct (getApiInfo store) as [api|]; [|discriminate].
  set (key := cache_key store query page size).
  unfold getCache at 1.
  destruct (cache w !! key) as [hit|] eqn:Hhit;
    [destruct (until hit <? now w) eqn:Hexp|].
  - cbn [await]. unfold search_complete.
    destruct (outcome _) as [results|e1]; [|discriminate].
    destruct (res_map normalize _) as [out'|e1]; [|discriminate].
    intros [= <- <-].
    eexists. split; [apply lookup_insert_eq|]. split; [reflexivity|].
    split; [right; split; [eexists|]; reflexivity|].
    intros d Hd. cbn in Hd.
    erewrite getCache_fresh; cycle 1;
      [apply lookup_insert_eq|exact Hd|reflexivity].
  - cbn [await]. intros [= <- <-].
    exists hit. split; [exact Hhit|]. split; [reflexivity|].
    split; [now left|].
    intros d Hd. erewrite getCache_fresh; [reflexivity|exact Hhit|exact Hd].
  - cbn [await]. unfold search_complete.
    destruct (outcome _) as [results|e1]; [|discriminate].
    destruct (res_map normalize _) as [out'|e1]; [|discriminate].
    intros [= <- <-].
    eexists. split; [apply lookup_insert_eq|]. split; [reflexivity|].
    split; [right; split; [eexists|]; reflexivity|].
    intros d Hd. cbn in Hd.
    erewrite getCache_fresh; cycle 1;
      [apply lookup_insert_eq|exact Hd|reflexivity].
Qed.

End Client.

Lemma getApiInfo_none s :
  getApiInfo s = None <->
  toLowerCase s <> "coles"%string /\ toLowerCase s <> "woolworths"%string.
Proof.
  unfold getApiInfo.
  destruct (String.eqb_spec (toLowerCase s) "coles") as [->|H1].
  - split; [discriminate|]. intros [H _]. now elim H.
  - destruct (String.eqb_spec (toLowerCase s) "woolworths") as [->|H2].
    + split; [discriminate|]. intros [_ H]. now elim H.
    + easy.
Qed.

(* ===================================================================== *)
(** * The batch route *)
(* ===================================================================== *)

(** ** The items parameter *)

Lemma split_comma_cons l : exists p ps, split_comma l = p :: ps.
Proof.
  induction l as [|x l (p & ps & IH)]; simpl; [eauto|].
  destruct (code x =? 44)%N; [eauto|]. rewrite IH. eauto.
Qed.

Lemma join_comma_cons p q ps :
  join_comma (p :: q :: ps) = p ++ ","%char :: join_comma (q :: ps).
Proof. reflexivity. Qed.

(** Splitting loses nothing: the pieces, joined with commas, are the
    text. *)
Lemma split_comma_join l : join_comma (split_comma l) = l.
Proof.
  induction l as [|x l IH]; [reflexivity|]. cbn [split_comma].
  destruct (split_comma_cons l) as (p & ps & E). rewrite E in *.
  destruct (code x =? 44)%N eqn:C.
  - apply comma_char in C as ->. now rewrite join_comma_cons, IH.
  - destruct ps as [|q ps]; [simpl in *; now rewrite IH|].
    rewrite join_comma_cons in *. cbn [app]. now rewrite IH.
Qed.

(** No piece holds a comma. *)
Lemma split_comma_pieces l :
  Forall (Forall (fun x => is_comma x = false)) (split_comma l).
Proof.
  induction l as [|x l IH]; simpl; [repeat constructor|].
  destruct (code x =? 44)%N eqn:C; [now constructor|].
  destruct (split_comma l) as [|p ps]; [repeat constructor; exact C|].
  apply Forall_cons in IH as [Hp Hps]. constructor; [|exact Hps].
  now constructor.
Qed.

(** ** The loop *)

Section Batch.
Variable RAPIDAPI_KEY : option string.
Variable upstream : request -> Z -> reply.

(** The loop adds one entry for each item, in order. *)
Lemma bulk_loop_names items : forall out w out' w',
  bulk_loop RAPIDAPI_KEY upstream items out w = (Ok out', w') ->
  List.map fst out' = List.map fst out ++ items.
Proof.
  induction items as [|name rest IH]; intros out w out' w'; simpl.
  - intros [= <- _]. now rewrite app_nil_r.
  - destruct (search_both _ _ name w) as [[[coles woolworths]|e] w1]; [|discriminate].
    destruct (attribute _) as [a|e]; [|discriminate].
    intros H. apply IH in H. rewrite H, List.map_app. simpl.
    now rewrite <- app_assoc.
Qed.

(** The loop stops at the first item that throws. *)
Lemma bulk_loop_app pre post : forall out w,
  bulk_loop RAPIDAPI_KEY upstream (pre ++ post) out w =
  match bulk_loop RAPIDAPI_KEY upstream pre out w with
  | (Ok o, w1) => bulk_loop RAPIDAPI_KEY upstream post o w1
  | (Throw e, w1) => (Throw e, w1)
  end.
Proof.
  induction pre as [|name rest IH]; intros out w; simpl; [reflexivity|].
  destruct (search_both _ _ name w) as [[[coles woolworths]|e] w1]; [|reflexivity].
  destruct (attribute _) as [a|e]; [|reflexivity].
  apply IH.
Qed.

Lemma bulk_route_loop items w :
  parse_items items <> [] ->
  bulk_route RAPIDAPI_KEY upstream items w =
  match bulk_loop RAPIDAPI_KEY upstream (parse_items items) [] w with
  | (Ok out, w1) => ({| status := 200; content := BBulk out |}, w1)
  | (Throw e, w1) => (server_error e, w1)
  end.
Proof.
  unfold bulk_route. destruct (parse_items items); [easy|reflexivity].
Qed.

Lemma bulk_route_empty items w :
  parse_items items = [] ->
  bulk_route RAPIDAPI_KEY upstream items w =
  ({| status := 400; content := BError "Provide ?items=Flour,Sugar,..." |}, w).
Proof. unfold bulk_route. now intros ->. Qed.

(** Whenever the answer is a report, it has the items' names. *)
Lemma bulk_route_report items w report :
  content (fst (bulk_route RAPIDAPI_KEY upstream items w)) = BBulk report ->
  List.map fst report = parse_items items.
Proof.
  destruct (parse_items items) as [|n ns] eqn:E.
  - rewrite bulk_route_empty by exact E. discriminate.
  - rewrite bulk_route_loop by (rewrite E; discriminate). rewrite E.
    destruct (bulk_loop _ _ (n :: ns) [] w) as [[out|e] w1] eqn:L; simpl.
    + intros [= <-]. now apply bulk_loop_names in L.
    + discriminate.
Qed.

End Batch.

(** ** When nothing throws *)

Lemma js_or_text a b :
  is_text a -> (exists s, b = VStr s) -> exists s, js_or a b = VStr s.
Proof.
  intros Ha [s ->]. unfold js_or.
  destruct a as [| |x|x|x]; simpl in *; try contradiction; eauto.
  destruct (nonempty x); eauto.
Qed.

Lemma js_or3_text a b c :
  is_text a -> is_text b -> is_text c ->
  exists s, js_or (js_or (js_or a b) c) (VStr "") = VStr s.
Proof.
  intros Ha Hb Hc. apply js_or_text; [|eauto].
  assert (Hab : is_text (js_or a b)) by (unfold js_or; now destruct (truthy a)).
  unfold js_or at 1. now destruct (truthy (js_or a b)).
Qed.

(** A well-typed raw record is normalised, and its url is text. *)
Lemma normalize_ok obj :
  raw_ok obj -> exists r, normalize obj = Ok r /\ url_text r.
Proof.
  intros H. unfold raw_ok, Ref.size_fields, Ref.link_fields in H. cbn [app] in H.
  repeat match goal with
         | H : Forall _ (_ :: _) |- _ => apply Forall_cons in H as [? H]
         end.
  unfold normalize.
  destruct (js_or3_text (prop obj "productSize") (prop obj "packageSize")
              (prop obj "size")) as [s Hs]; auto.
  destruct (js_or3_text (prop obj "productUrl") (prop obj "url")
              (prop obj "link")) as [u Hu]; auto.
  cbv zeta. rewrite Hs, Hu. cbn [sizeToKg_call res_bind].
  eexists. split; [reflexivity|]. now exists u.
Qed.

Lemma res_map_ok l :
  Forall raw_ok l -> exists out, res_map normalize l = Ok out /\ Forall url_text out.
Proof.
  induction 1 as [|obj l Ho _ (out & Hout & Hall)]; simpl; [eauto|].
  destruct (normalize_ok obj Ho) as (r & -> & Hr). rewrite Hout. simpl. eauto.
Qed.

Lemma guessStore_ok p : url_text p -> exists s, guessStore p = Ok s.
Proof.
  intros [u Hu]. unfold guessStore, js_or. rewrite Hu. simpl.
  destruct (nonempty u); eauto.
Qed.

Lemma attribute_ok lt f l :
  Forall url_text l -> exists a, attribute (reduce_best lt (List.filter f l)) = Ok a.
Proof.
  intros H. destruct (reduce_best lt _) as [p|] eqn:E; simpl; [|eauto].
  apply reduce_best_in, filter_In in E as [E _].
  rewrite List.Forall_forall in H.
  destruct (guessStore_ok p (H p E)) as [s ->]. simpl. eauto.
Qed.

Lemma putCache_ok k out ttl w :
  cache_ok w -> Forall url_text out -> cache_ok (putCache k out ttl w).
Proof.
  intros Hw Ho k' e. unfold putCache; simpl.
  destruct (decide (k = k')) as [->|Hne].
  - rewrite lookup_insert_eq. now intros [= <-].
  - rewrite lookup_insert_ne by exact Hne. apply Hw.
Qed.

Lemma tick_ok d w : cache_ok w -> cache_ok (tick d w).
Proof. intros H. exact H. Qed.

Section Healthy.
Variable RAPIDAPI_KEY : option string.
Variable upstream : request -> Z -> reply.

(** The key is set and every request is answered with well-typed
    records. *)
Hypothesis key_set : nonempty (default EmptyString RAPIDAPI_KEY) = true.
Hypothesis upstream_ok : forall rq t,
  exists results, outcome (upstream rq t) = Ok results /\
                  Forall raw_ok (default [] results).

Lemma search_complete_ok k rq t w :
  cache_ok w ->
  exists out w',
    search_complete k (upstream rq t) w = (Ok out, w') /\
    Forall url_text out /\ cache_ok w'.
Proof.
  intros Hw. unfold search_complete.
  destruct (upstream_ok rq t) as (results & -> & Hr).
  destruct (res_map_ok _ Hr) as (out & -> & Ho).
  exists out, (putCache k out DEFAULT_TTL w). split; [reflexivity|].
  split; [exact Ho|]. now apply putCache_ok.
Qed.

Lemma search_begin_ok store query page size w :
  getApiInfo store <> None -> cache_ok w ->
  pending_ok upstream
    (fst (search_begin RAPIDAPI_KEY upstream store query page size w)) /\
  cache_ok (snd (search_begin RAPIDAPI_KEY upstream store query page size w)).
Proof.
  intros Hs Hw. unfold search_begin, ensureKey. rewrite key_set.
  destruct (getApiInfo store) as [api|]; [|congruence].
  unfold getCache.
  destruct (cache w !! _) as [hit|] eqn:E;
    [destruct (until hit <? now w)|]; simpl.
  - split; [eauto|]. intros k e. unfold with_cache; simpl.
    intros H. apply lookup_delete_Some in H as [_ H]. now apply Hw in H.
  - split; [now apply Hw in E | exact Hw].
  - split; [eauto | exact Hw].
Qed.

Lemma await_all_ok pa pb w :
  pending_ok upstream pa -> pending_ok upstream pb -> cache_ok w ->
  exists la lb w',
    await_all pa pb w = (Ok (la, lb), w') /\
    Forall url_text la /\ Forall url_text lb /\ cache_ok w'.
Proof.
  intros Ha Hb Hw.
  destruct pa as [[la|]|ka ra], pb as [[lb|]|kb rb]; simpl in Ha, Hb;
    try contradiction; simpl.
  - eauto 10.
  - destruct Hb as (rq & t & ->).
    destruct (search_complete_ok kb rq t (tick (latency (upstream rq t)) w))
      as (out & w' & -> & Ho & Hw'); [now apply tick_ok|]. simpl. eauto 10.
  - destruct Ha as (rq & t & ->).
    destruct (search_complete_ok ka rq t (tick (latency (upstream rq t)) w))
      as (out & w' & -> & Ho & Hw'); [now apply tick_ok|]. simpl. eauto 10.
  - destruct Ha as (rqa & ta & ->), Hb as (rqb & tb & ->).
    destruct (_ <=? _)%N.
    + destruct (search_complete_ok ka rqa ta (tick (latency (upstream rqa ta)) w))
        as (oa & w1 & -> & Hoa & Hw1); [now apply tick_ok|].
      destruct (search_complete_ok kb rqb tb
                  (tick (latency (upstream rqb tb) - latency (upstream rqa ta)) w1))
        as (ob & w2 & -> & Hob & Hw2); [now apply tick_ok|]. simpl. eauto 10.
    + destruct (search_complete_ok kb rqb tb (tick (latency (upstream rqb tb)) w))
        as (ob & w1 & -> & Hob & Hw1); [now apply tick_ok|].
      destruct (search_complete_ok ka rqa ta
                  (tick (latency (upstream rqa ta) - latency (upstream rqb tb)) w1))
        as (oa & w2 & -> & Hoa & Hw2); [now apply tick_ok|]. simpl. eauto 10.
Qed.

Lemma search_both_ok q w :
  cache_ok w ->
  exists la lb w',
    search_both RAPIDAPI_KEY upstream q w = (Ok (la, lb), w') /\
    Forall url_text la /\ Forall url_text lb /\ cache_ok w'.
Proof.
  intros Hw. unfold search_both.
  destruct (search_begin_ok "coles" q 1 15 w) as [Ha Hw1]; [discriminate|exact Hw|].
  destruct (search_begin _ _ "coles" q 1 15 w) as [pa w1]. simpl in Ha, Hw1.
  destruct (search_begin_ok "woolworths" q 1 15 w1) as [Hb Hw2]; [discriminate|exact Hw1|].
  destruct (search_begin _ _ "woolworths" q 1 15 w1) as [pb w2]. simpl in Hb, Hw2.
  now apply await_all_ok.
Qed.

Lemma bulk_loop_ok items : forall out w,
  cache_ok w ->
  exists out' w', bulk_loop RAPIDAPI_KEY upstream items out w = (Ok out', w').
Proof.
  induction items as [|name rest IH]; intros out w Hw; simpl; [eauto|].
  destruct (search_both_ok name w Hw) as (la & lb & w1 & -> & Ha & Hb & Hw1).
  unfold bulk_best.
  destruct (attribute_ok perKg_lt (fun p => has_price p && has_perKg p) (la ++ lb))
    as [a ->]; [apply Forall_app; auto|].
  now apply IH.
Qed.

(** With providers that answer, every item gets its entry. *)
Lemma bulk_route_ok items w :
  cache_ok w -> parse_items items <> [] ->
  exists report w',
    bulk_route RAPIDAPI_KEY upstream items w =
      ({| status := 200; content := BBulk report |}, w') /\
    List.map fst report = parse_items items.
Proof.
  intros Hw Hne. rewrite bulk_route_loop by exact Hne.
  destruct (bulk_loop_ok (parse_items items) [] w Hw) as (out & w' & H).
  rewrite H. exists out, w'. split; [reflexivity|].
  now apply bulk_loop_names in H.
Qed.

End Healthy.

Lemma cache_ok_empty : cache_ok w0.
Proof. intros k e H. vm_compute in H. discriminate. Qed.

Lemma up_flour_ok rq t :
  exists results, outcome (up_flour rq t) = Ok results /\
                  Forall raw_ok (default [] results).
Proof. eexists. split; [reflexivity|]. repeat constructor. Qed.

(* ===================================================================== *)
(** * Lemmas on rounding, the throwing normaliser and a cache miss *)
(* ===================================================================== *)

Lemma first_truthy_shape obj ks :
  match Ref.first_of truthy obj ks (VStr "") with
  | VUndefined | VNull => False
  | _ => True
  end.
Proof.
  induction ks as [|k ks IH]; simpl; [exact I|].
  destruct (truthy (prop obj k)) eqn:E; [|exact IH].
  now destruct (prop obj k).
Qed.

(** The normaliser throws exactly on a size that is truthy and not a text,
    and then with the exception of the missing [match]. *)
Lemma normalize_throws obj e :
  normalize obj = Throw e <-> bad_size obj /\ e = no_match_method.
Proof.
  unfold normalize, bad_size. rewrite or3_first.
  change ["productSize"; "packageSize"; "size"]%string with Ref.size_fields.
  pose proof (first_truthy_shape obj Ref.size_fields) as Hs.
  destruct (Ref.first_of truthy obj Ref.size_fields (VStr "")); simpl;
    try contradiction.
  - split; [now intros [= <-]|now intros [_ ->]].
  - split; [now intros [= <-]|now intros [_ ->]].
  - split; [discriminate|now intros [[] _]].
Qed.

(** [+x.toFixed(2)] is [x] rounded to two decimal places. *)
Lemma toFixed2_rounded x : rounded2 x (unary_plus (toFixed2 x)).
Proof.
  destruct x as [s|s| |s m e]; simpl; try reflexivity.
  destruct (ge_1e21 m e); simpl; [reflexivity|].
  exists (scaled2 m e). split; [|reflexivity].
  destruct (Z_lt_le_dec e 0) as [He|He].
  - pose proof (scaled2_nearest m e He) as H.
    rewrite (Z.max_l 0 e) by lia. rewrite (Z.max_r 0 (- e)) by lia.
    rewrite Z.pow_0_r, Z.mul_1_r. exact H.
  - rewrite (scaled2_exact m e He).
    rewrite (Z.max_r 0 e) by lia. rewrite (Z.max_l 0 (- e)) by lia.
    rewrite Z.pow_0_r. lia.
Qed.

Section Miss.
Variable RAPIDAPI_KEY : option string.
Variable upstream : request -> Z -> reply.

(** A search for coles that finds its list fresh in the cache. *)
Lemma coles_hit t w e :
  nonempty (default EmptyString RAPIDAPI_KEY) = true ->
  cache w !! cache_key "coles" t 1 15 = Some e -> now w <= until e ->
  callStoreSearch RAPIDAPI_KEY upstream "coles" t 1 15 w = (Ok (value e), w).
Proof.
  intros Hk He Hle. unfold callStoreSearch, search_begin, ensureKey. rewrite Hk.
  change (getApiInfo "coles") with (Some coles_api). cbv iota beta.
  rewrite (getCache_fresh _ _ _ He Hle). reflexivity.
Qed.

(** A search for coles that finds nothing fresh in the cache: the request
    is sent and the reply handled when it arrives. *)
Lemma coles_miss t w :
  nonempty (default EmptyString RAPIDAPI_KEY) = true ->
  (cache w !! cache_key "coles" t 1 15 = None \/
   exists e, cache w !! cache_key "coles" t 1 15 = Some e /\ until e < now w) ->
  exists w1,
    now w1 = now w /\ calls w1 = coles_request t :: calls w /\
    callStoreSearch RAPIDAPI_KEY upstream "coles" t 1 15 w =
    search_complete (cache_key "coles" t 1 15) (upstream (coles_request t) (now w))
      (tick (latency (upstream (coles_request t) (now w))) w1).
Proof.
  intros Hk Hc. unfold callStoreSearch, search_begin, ensureKey. rewrite Hk.
  change (getApiInfo "coles") with (Some coles_api). cbv iota beta.
  destruct Hc as [Hc|(e & He & Hlt)].
  - rewrite (getCache_absent _ _ Hc). eexists. split; [|split; [|reflexivity]];
      reflexivity.
  - rewrite (getCache_expired _ _ _ He Hlt). eexists.
    split; [|split; [|reflexivity]]; reflexivity.
Qed.

Lemma search_complete_calls key rp w :
  calls (snd (search_complete key rp w)) = calls w.
Proof.
  unfold search_complete. destruct (outcome rp) as [results|e]; [|reflexivity].
  destruct (res_map normalize _); reflexivity.
Qed.

End Miss.

(* ===================================================================== *)
(** * The properties of the specification *)
(* ===================================================================== *)

(** C1.  The unit parser is its reference definition: on every text
    [sizeToKg] returns what the reference returns, which tries the
    multi-pack pattern first (N times [unitToKg] of amount and unit), then
    the single pattern ([unitToKg] of amount and unit), and is [null]
    otherwise; [unitToKg] is the table g, kg, ml, l read without regard to
    case, [null] for any other unit.  The examples of the specification
    evaluate as it says, and in a text that holds both patterns the
    multi-pack one wins even when the single one comes first. *)
Theorem sizeToKg_reference :
  (forall s, sizeToKg s = Ref.parseSizeToKg s) /\
  (forall q u, unitToKg q (Some u) = Ref.unitToKg q u) /\
  (forall q, unitToKg q (Some "g"%string) = Some (div q (of_Z 1000)) /\
             unitToKg q (Some "kg"%string) = Some q /\
             unitToKg q (Some "ml"%string) = Some (div q (of_Z 1000)) /\
             unitToKg q (Some "l"%string) = Some q /\
             unitToKg q (Some "Kg"%string) = Some q /\
             unitToKg q (Some "mL"%string) = Some (div q (of_Z 1000)) /\
             unitToKg q (Some "oz"%string) = None /\
             unitToKg q None = None) /\
  sizeToKg "6 x 250g" = Some (of_ratio false 15 10) /\
  sizeToKg "1.5kg" = Some (of_ratio false 15 10) /\
  sizeToKg "500ml" = Some (of_ratio false 5 10) /\
  sizeToKg "2L" = Some (of_Z 2) /\
  sizeToKg "" = None /\
  sizeToKg "assorted" = None /\
  Ref.leftmost Ref.single_at (list_ascii_of_string "1kg 2 x 3kg") =
    Some (["1"%char], ["k"%char; "g"%char]) /\
  sizeToKg "1kg 2 x 3kg" = Some (of_Z 6).
Proof.
  split; [apply sizeToKg_ref|]. split; [apply unitToKg_ref|].
  repeat split; reflexivity.
Qed.

(** C2.  In every record the normaliser builds, [pricePerKg] is a number
    only if [price] is a number and the size text parsed to a
    kilogram-equivalent, and it is then the price divided by that
    kilogram-equivalent, rounded to two decimal places: what
    [+(price / kg).toFixed(2)] computes, which is the number nearest to
    [n / 100] for the integer [n] nearest to a hundred times the quotient,
    the larger one of two.  A record whose price is [null] has [pricePerKg]
    [null]; a record with price 10 and size "2kg" has [pricePerKg] 5; with
    price 1, size "3kg" gives 0.33 and size "8kg", whose quotient 0.125
    lies halfway, gives 0.13. *)
Theorem pricePerKg_derived obj r :
  normalize obj = Ok r ->
  (forall v, Product.pricePerKg r = Some v ->
     exists p s k,
       Product.price r = Some p /\ Product.size r = VStr s /\
       sizeToKg s = Some k /\ v = unary_plus (toFixed2 (div p k)) /\
       rounded2 (div p k) v) /\
  (Product.price r = None -> Product.pricePerKg r = None) /\
  (Product.price r = Some (of_Z 10) -> Product.size r = VStr "2kg" ->
   Product.pricePerKg r = Some (of_Z 5)) /\
  (Product.price r = Some (of_Z 1) -> Product.size r = VStr "3kg" ->
   Product.pricePerKg r = Some (of_ratio false 33 100)) /\
  (Product.price r = Some (of_Z 1) -> Product.size r = VStr "8kg" ->
   Product.pricePerKg r = Some (of_ratio false 13 100)).
Proof.
  intros H. destruct (normalize_inv _ _ H) as (kg & Hsz & Hk & _).
  split; [|split; [|split; [|split]]].
  - intros v Hv. rewrite Hk in Hv.
    apply pricePerKg_of_some in Hv as (k & p & -> & Hp & _ & _ & ->).
    apply sizeToKg_call_some in Hsz as (s & Hs & Hkg).
    exists p, s, k. repeat split; try assumption. apply toFixed2_rounded.
  - intros Hp. rewrite Hk, Hp. now destruct kg.
  - intros Hp Hs. rewrite Hk, Hp. rewrite Hs in Hsz.
    cbn [sizeToKg_call] in Hsz. injection Hsz as <-. reflexivity.
  - intros Hp Hs. rewrite Hk, Hp. rewrite Hs in Hsz.
    cbn [sizeToKg_call] in Hsz. injection Hsz as <-. reflexivity.
  - intros Hp Hs. rewrite Hk, Hp. rewrite Hs in Hsz.
    cbn [sizeToKg_call] in Hsz. injection Hsz as <-. reflexivity.
Qed.

Lemma pricePerKg_derived_witness :
  (exists r, normalize obj_2kg = Ok r /\ Product.pricePerKg r = Some (of_Z 5) /\
             exists p s k,
               Product.price r = Some p /\ Product.size r = VStr s /\
               sizeToKg s = Some k /\ of_Z 5 = unary_plus (toFixed2 (div p k)) /\
               rounded2 (div p k) (of_Z 5)) /\
  (exists r, normalize obj_third = Ok r /\
             Product.pricePerKg r = Some (of_ratio false 33 100) /\
             exists p s k,
               Product.price r = Some p /\ Product.size r = VStr s /\
               sizeToKg s = Some k /\
               rounded2 (div p k) (of_ratio false 33 100)) /\
  (exists r, normalize obj_eighth = Ok r /\
             Product.pricePerKg r = Some (of_ratio false 13 100)) /\
  (exists r, normalize obj_id0 = Ok r /\ Product.price r = None /\
             Product.pricePerKg r = None).
Proof.
  split; [|split; [|split]].
  - eexists. split; [reflexivity|].
    destruct (pricePerKg_derived obj_2kg _ eq_refl) as (H1 & _ & H3 & _).
    split; [apply H3; reflexivity|]. apply H1. reflexivity.
  - eexists. split; [reflexivity|].
    destruct (pricePerKg_derived obj_third _ eq_refl) as (H1 & _ & _ & H4 & _).
    split; [apply H4; reflexivity|].
    destruct (H1 (of_ratio false 33 100) eq_refl) as (p & s & k & Hp & Hs & Hk & _ & Hr).
    eauto 8.
  - eexists. split; [reflexivity|].
    destruct (pricePerKg_derived obj_eighth _ eq_refl) as (_ & _ & _ & _ & H5).
    apply H5; reflexivity.
  - eexists. split; [reflexivity|]. split; [reflexivity|].
    apply (pricePerKg_derived obj_id0 _ eq_refl). reflexivity.
Defined.

(** C3.  The comparison step of [/cheapest] on the two normalised lists:
    the lists are merged, the first provider's records first, and the
    records without a price dropped; cheapest-by-item is the record of
    minimum price, cheapest-by-kg the record of minimum price per kilogram
    among those that have one; in both a tie goes to the record that comes
    first in the merged list, and the winner is [null] when no record
    qualifies. *)
Theorem cheapest_selection rawA rawB coles woolworths :
  res_map normalize rawA = Ok coles ->
  res_map normalize rawB = Ok woolworths ->
  let all := List.filter (fun p => present (Product.price p)) (coles ++ woolworths) in
  Ref.first_minimum Product.price all (cheapest_byItem coles woolworths) /\
  Ref.first_minimum Product.pricePerKg
    (List.filter (fun p => present (Product.pricePerKg p)) all)
    (cheapest_byKg coles woolworths).
Proof.
  intros HA HB all.
  assert (Hwf : Forall well_formed (coles ++ woolworths)).
  { apply Forall_app. split; eapply List.Forall_impl;
      try (eapply res_map_Forall; eassumption);
      intros r [obj Hr]; now apply normalize_well_formed in Hr. }
  split.
  - apply (reduce_best_minimum Product.price Infinity).
    now apply filter_comparable_price.
  - apply (reduce_best_minimum Product.pricePerKg zero).
    apply filter_comparable_perKg. now apply Forall_filter_keep.
Qed.

Lemma cheapest_selection_witness :
  Ref.first_minimum Product.price (listA ++ listB) (cheapest_byItem listA listB) /\
  option_map Product.price (cheapest_byItem listA listB) =
    Some (Some (of_ratio false 45 10)) /\
  option_map Product.pricePerKg (cheapest_byKg listA listB) = Some (Some (of_Z 18)).
Proof.
  split; [|split; reflexivity].
  exact (proj1 (cheapest_selection rawA rawB listA listB eq_refl eq_refl)).
Defined.

(** C4, as stated, fails: with a provider that fails on one of three items
    the request gets no report at all. *)
Lemma batch_failure_not_isolated :
  ~ Ref.failures_isolated (Some "k"%string) up_flaky
      (Some "Sugar,Flour,Cocoa"%string) w0.
Proof.
  intros H. destruct H as (report & H & _); [discriminate|].
  vm_compute in H. discriminate.
Qed.

(** C4, amended.  In [/bulk-cheapest-perkg] a fetch failure for one item
    ends the whole request: when the items before it were processed and
    the search for it throws, the response is the 500 error made from that
    exception, and the server is left as the failed search left it, the
    items after it not processed. *)
Theorem batch_failure_fails_request RAPIDAPI_KEY upstream items w
        pre name post out1 w1 e w2 :
  parse_items items = pre ++ name :: post ->
  bulk_loop RAPIDAPI_KEY upstream pre [] w = (Ok out1, w1) ->
  search_both RAPIDAPI_KEY upstream name w1 = (Throw e, w2) ->
  bulk_route RAPIDAPI_KEY upstream items w = (server_error e, w2).
Proof.
  intros Hi Hpre Hfail.
  rewrite bulk_route_loop by (rewrite Hi; now destruct pre).
  rewrite Hi, bulk_loop_app, Hpre. simpl. now rewrite Hfail.
Qed.

Lemma batch_failure_fails_request_witness :
  fst (bulk_route (Some "k"%string) up_flaky (Some "Sugar,Flour,Cocoa"%string) w0) =
  {| status := 500; content := BError "Request failed with status code 503" |}.
Proof.
  set (r1 := bulk_loop (Some "k"%string) up_flaky ["Sugar"%string] [] w0).
  set (r2 := search_both (Some "k"%string) up_flaky "Flour" (snd r1)).
  rewrite (batch_failure_fails_request (Some "k"%string) up_flaky
             (Some "Sugar,Flour,Cocoa"%string) w0
             ["Sugar"%string] "Flour"%string ["Cocoa"%string]
             [("Sugar"%string, None)] (snd r1)
             (Error "Request failed with status code 503") (snd r2));
    reflexivity.
Defined.

(** C5.  The response cache: a [get] on a key whose expiry time has been
    exceeded returns [null] and deletes the entry, which is absent from
    then on; a [get] within the time to live returns exactly the value that
    was put; so after a search that succeeded, a search with the same
    store, query, page and size before the entry expires returns the same
    list and sends no request, the two searches together having sent at
    most one. *)
Theorem cache_expiry_and_reuse RAPIDAPI_KEY upstream k w e v ttl d
        store query page size out w1 :
  (cache w !! k = Some e -> until e < now w ->
   fst (getCache k w) = None /\
   cache (snd (getCache k w)) !! k = None /\
   forall d', getCache k (tick d' (snd (getCache k w))) =
              (None, tick d' (snd (getCache k w)))) /\
  (Z.of_N d <= ttl ->
   getCache k (tick d (putCache k v ttl w)) = (Some v, tick d (putCache k v ttl w))) /\
  (callStoreSearch RAPIDAPI_KEY upstream store query page size w = (Ok out, w1) ->
   exists e',
     cache w1 !! cache_key store query page size = Some e' /\
     value e' = out /\
     (calls w1 = calls w \/
      (exists rq, calls w1 = rq :: calls w) /\ until e' = now w1 + DEFAULT_TTL) /\
     forall d', now w1 + Z.of_N d' <= until e' ->
       callStoreSearch RAPIDAPI_KEY upstream store query page size (tick d' w1) =
       (Ok out, tick d' w1)).
Proof.
  split; [|split].
  - intros He Hlt. rewrite (getCache_expired _ _ _ He Hlt). simpl.
    assert (Hd : delete k (cache w) !! k = None) by apply lookup_delete_eq.
    split; [reflexivity|]. split; [exact Hd|].
    intros d'. now apply getCache_absent.
  - intros Hd. erewrite getCache_fresh; cycle 1;
      [apply lookup_insert_eq | simpl; lia | reflexivity].
  - apply search_then_cached.
Qed.

Lemma cache_expiry_and_reuse_witness :
  (fst (getCache "k" w_stale) = None /\
   cache (snd (getCache "k" w_stale)) !! "k"%string = None) /\
  getCache "k" (tick 45000 (putCache "k" [] DEFAULT_TTL w0)) =
    (Some [], tick 45000 (putCache "k" [] DEFAULT_TTL w0)) /\
  (let r1 := callStoreSearch (Some "k"%string) up_flour "coles" "flour" 1 15 w0 in
   let r2 := callStoreSearch (Some "k"%string) up_flour "coles" "flour" 1 15
               (tick 45000 (snd r1)) in
   fst r2 = fst r1 /\ length (calls (snd r2)) = 1%nat).
Proof.
  set (r1 := callStoreSearch (Some "k"%string) up_flour "coles" "flour" 1 15 w0).
  destruct (cache_expiry_and_reuse (Some "k"%string) up_flour "k"%string w_stale
              {| until := 10; value := [] |} [] DEFAULT_TTL 45000%N
              "coles"%string "flour"%string 1%N 15%N
              match fst r1 with Ok l => l | Throw _ => [] end (snd r1))
    as (Ha & _ & _).
  destruct (cache_expiry_and_reuse (Some "k"%string) up_flour "k"%string w0
              {| until := 10; value := [] |} [] DEFAULT_TTL 45000%N
              "coles"%string "flour"%string 1%N 15%N
              match fst r1 with Ok l => l | Throw _ => [] end (snd r1))
    as (_ & Hb & Hc).
  split; [|split].
  - destruct (Ha eq_refl eq_refl) as (H1 & H2 & _). now split.
  - apply Hb. vm_compute. discriminate.
  - destruct (Hc eq_refl) as (e' & He' & Hv & _ & Hd).
    cbv zeta. rewrite (Hd 45000%N).
    + split; reflexivity.
    + vm_compute in He'. injection He' as <-. vm_compute. discriminate.
Defined.

(** C6.  Numeric coercion: [toNumber] of a number is the number when it is
    finite; of a text it is what [parseFloat] reads in the text stripped of
    every character that is not a digit or a decimal point, when that is
    finite; it is [null] for an absent input and for a result that is not
    finite, so every number it returns is finite; and
    [toNumber("$4.50")] is 4.5, [toNumber(null)] and [toNumber("abc")] are
    [null]. *)
Theorem toNumber_coercion :
  (forall n, toNumber (VNum n) = if isFinite n then Some n else None) /\
  (forall s, toNumber (VStr s) =
             let n := parseFloat (strip_non_numeric s) in
             if isFinite n then Some n else None) /\
  (forall s, list_ascii_of_string (strip_non_numeric s) =
             List.filter (fun c => is_digit c || Ascii.eqb c ".")
                         (list_ascii_of_string s)) /\
  toNumber VNull = None /\ toNumber VUndefined = None /\
  (forall v, match toNumber v with
             | Some n => isFinite n = true
             | None => True
             end) /\
  toNumber (VStr "$4.50") = Some (of_ratio false 45 10) /\
  toNumber (VStr "abc") = None.
Proof.
  repeat split; try reflexivity.
  - intros s. rewrite strip_chars. apply List.filter_ext. intros c.
    symmetry. apply dot_char.
  - intros v. destruct (toNumber v) as [n|] eqn:E; [|exact I].
    now apply toNumber_finite in E.
Qed.




(** C8.  In [/bulk-cheapest-perkg] the items parameter is split on commas,
    each piece trimmed and the blank pieces discarded; an empty list is
    answered with 400 and an error body, and only an empty list is; a
    report has exactly one entry for each surviving item, in the caller's
    order, and with providers that answer the request is answered with
    such a report; [items=Flour,] processes "Flour" alone, and an empty
    [items=] yields 400. *)
Theorem bulk_items_report RAPIDAPI_KEY upstream items w :
  let names := parse_items items in
  names =
    List.filter nonempty (List.map trim (split (default EmptyString items))) /\
  (names = [] ->
   bulk_route RAPIDAPI_KEY upstream items w =
   ({| status := 400; content := BError "Provide ?items=Flour,Sugar,..." |}, w)) /\
  (names <> [] ->
   status (fst (bulk_route RAPIDAPI_KEY upstream items w)) <> 400%nat) /\
  (forall report,
     content (fst (bulk_route RAPIDAPI_KEY upstream items w)) = BBulk report ->
     List.map fst report = names) /\
  (names <> [] ->
   nonempty (default EmptyString RAPIDAPI_KEY) = true ->
   (forall rq t, exists results,
       outcome (upstream rq t) = Ok results /\ Forall raw_ok (default [] results)) ->
   cache_ok w ->
   exists report w',
     bulk_route RAPIDAPI_KEY upstream items w =
       ({| status := 200; content := BBulk report |}, w') /\
     List.map fst report = names) /\
  parse_items (Some "Flour,"%string) = ["Flour"%string] /\
  parse_items (Some ""%string) = [].
Proof.
  cbv zeta. split; [reflexivity|]. split; [apply bulk_route_empty|].
  split.
  { intros Hne. rewrite bulk_route_loop by exact Hne.
    destruct (bulk_loop _ _ _ _ _) as [[out|e] w1]; simpl; discriminate. }
  split; [apply bulk_route_report|]. split; [|split; reflexivity].
  intros Hne Hk Hup Hc. now apply bulk_route_ok.
Qed.

Lemma bulk_items_report_witness :
  (exists report w',
     bulk_route (Some "k"%string) up_flour (Some "Flour,"%string) w0 =
       ({| status := 200; content := BBulk report |}, w') /\
     List.map fst report = ["Flour"%string]) /\
  status (fst (bulk_route (Some "k"%string) up_flaky (Some "Flour,"%string) w0))
    <> 400%nat /\
  bulk_route (Some "k"%string) up_flour (Some " , "%string) w0 =
    ({| status := 400; content := BError "Provide ?items=Flour,Sugar,..." |}, w0).
Proof.
  split; [|split].
  - destruct (bulk_items_report (Some "k"%string) up_flour (Some "Flour,"%string) w0)
      as (_ & _ & _ & _ & H & _).
    apply H; [discriminate | reflexivity | apply up_flour_ok | apply cache_ok_empty].
  - destruct (bulk_items_report (Some "k"%string) up_flaky (Some "Flour,"%string) w0)
      as (_ & _ & H & _).
    apply H. discriminate.
  - destruct (bulk_items_report (Some "k"%string) up_flour (Some " , "%string) w0)
      as (_ & H & _).
    apply H. reflexivity.
Defined.

(** C9.  For every raw record whose coerced price is 0, or whose size text
    parses to a kilogram-equivalent of 0, the normalised record's
    [pricePerKg] is [null], although the price is a number and the size
    parsed: the division is behind a truthiness check of both operands. *)
Theorem zero_gives_no_unit_price obj r :
  normalize obj = Ok r ->
  (exists p, Product.price r = Some p /\ is_zero p = true) \/
  (exists s k, Product.size r = VStr s /\ sizeToKg s = Some k /\ is_zero k = true) ->
  Product.pricePerKg r = None.
Proof.
  intros H Hz. destruct (normalize_inv _ _ H) as (kg & Hsz & Hk & _).
  rewrite Hk. destruct Hz as [(p & -> & Hp)|(s & k & Hs & Hkg & Hzk)].
  - destruct kg as [k|]; [|reflexivity]. unfold pricePerKg_of. simpl.
    destruct p; try discriminate. now rewrite andb_false_r.
  - rewrite Hs in Hsz. cbn [sizeToKg_call] in Hsz. rewrite Hkg in Hsz.
    injection Hsz as <-. destruct (Product.price r); [|reflexivity].
    unfold pricePerKg_of. simpl. now destruct k.
Qed.

Lemma zero_gives_no_unit_price_witness :
  (exists r, normalize obj_free = Ok r /\ Product.price r = Some zero /\
             Product.pricePerKg r = None) /\
  (exists r, normalize obj_0g = Ok r /\ Product.price r = Some (of_Z 3) /\
             sizeToKg "0g" = Some zero /\ Product.pricePerKg r = None).
Proof.
  split.
  - eexists. split; [reflexivity|]. split; [reflexivity|].
    apply (zero_gives_no_unit_price obj_free _ eq_refl).
    left. exists zero. split; reflexivity.
  - eexists. split; [reflexivity|]. split; [reflexivity|]. split; [reflexivity|].
    apply (zero_gives_no_unit_price obj_0g _ eq_refl).
    right. exists "0g"%string, zero. repeat split; reflexivity.
Defined.

(** C10.  A [GET /search] request with a [q] that is not empty and no
    [store] is handled as one for the store "coles": the route answers as
    it does for [store=coles] and the lookup of "coles" succeeds.  With the
    key set it is served by the coles provider and never rejected for its
    store: a list that is fresh in the cache under the key of coles, the
    query, page 1 and size 15 is returned with 200 and nothing is sent;
    otherwise exactly one request goes out, to the host and path of coles
    with the query, page 1 and size 15, and the answer is 200 with the
    normalised results of its reply, or 500 with the error of the reply.
    The provider lookup fails exactly for a store that, in lower case, is
    neither "coles" nor "woolworths". *)
Theorem search_defaults_to_coles RAPIDAPI_KEY upstream q w :
  search_route RAPIDAPI_KEY upstream None q w =
    search_route RAPIDAPI_KEY upstream (Some "coles"%string) q w /\
  getApiInfo "coles" = Some coles_api /\
  (forall s, getApiInfo s = None <->
             toLowerCase s <> "coles"%string /\ toLowerCase s <> "woolworths"%string) /\
  (forall t, q = Some t -> nonempty t = true ->
     nonempty (default EmptyString RAPIDAPI_KEY) = true ->
     let key := cache_key "coles" t 1 15 in
     let rp := upstream (coles_request t) (now w) in
     search_route RAPIDAPI_KEY upstream None q w =
       match callStoreSearch RAPIDAPI_KEY upstream "coles" t 1 15 w with
       | (Ok l, w1) => ({| status := 200; content := BList l |}, w1)
       | (Throw e, w1) => (server_error e, w1)
       end /\
     match search_begin RAPIDAPI_KEY upstream "coles" t 1 15 w with
     | (Settled (Ok l), _) =>
         fst (search_route RAPIDAPI_KEY upstream None q w) =
           {| status := 200; content := BList l |}
     | (Settled (Throw _), _) => False
     | (InFlight _ _, w1) =>
         calls w1 = {| req_host := host coles_api; req_path := path coles_api;
                       req_query := t; req_page := 1; req_size := 15 |} :: calls w
     end /\
     (forall e, cache w !! key = Some e -> now w <= until e ->
        search_route RAPIDAPI_KEY upstream None q w =
        ({| status := 200; content := BList (value e) |}, w)) /\
     (cache w !! key = None \/
      (exists e, cache w !! key = Some e /\ until e < now w) ->
      calls (snd (search_route RAPIDAPI_KEY upstream None q w)) =
        coles_request t :: calls w /\
      (forall results out,
         outcome rp = Ok results ->
         res_map normalize (default [] results) = Ok out ->
         fst (search_route RAPIDAPI_KEY upstream None q w) =
           {| status := 200; content := BList out |} /\
         cache (snd (search_route RAPIDAPI_KEY upstream None q w)) !! key =
           Some {| until := now w + Z.of_N (latency rp) + DEFAULT_TTL;
                   value := out |}) /\
      (forall e, outcome rp = Throw e ->
         fst (search_route RAPIDAPI_KEY upstream None q w) = server_error e))).
Proof.
  split; [reflexivity|]. split; [reflexivity|]. split; [apply getApiInfo_none|].
  intros t -> Ht Hk. cbv zeta.
  assert (R : search_route RAPIDAPI_KEY upstream None (Some t) w =
              match callStoreSearch RAPIDAPI_KEY upstream "coles" t 1 15 w with
              | (Ok l, w1) => ({| status := 200; content := BList l |}, w1)
              | (Throw e, w1) => (server_error e, w1)
              end).
  { unfold search_route. simpl. now destruct t. }
  split; [exact R|]. split; [|split].
  - destruct t as [|c t]; [discriminate|].
    unfold search_route, callStoreSearch. cbn [default].
    unfold search_begin, ensureKey. rewrite Hk.
    change (getApiInfo "coles") with (Some coles_api).
    cbv iota beta.
    destruct (getCache _ w) as [[l|] w1] eqn:E.
    + reflexivity.
    + unfold getCache in E. destruct (cache w !! _) as [hit|];
        [destruct (until hit <? now w)|]; try discriminate;
        inversion E; subst; reflexivity.
  - intros e He Hle. rewrite R.
    now rewrite (coles_hit RAPIDAPI_KEY upstream t w e Hk He Hle).
  - intros Hc. rewrite R.
    destruct (coles_miss RAPIDAPI_KEY upstream t w Hk Hc) as (w1 & Hn & Hcalls & ->).
    set (rp := upstream (coles_request t) (now w)).
    split; [|split].
    + pose proof (search_complete_calls (cache_key "coles" t 1 15) rp
                    (tick (latency rp) w1)) as Hs.
      destruct (search_complete _ rp _) as [[l|e] w2]; simpl in *;
        now rewrite Hs.
    + intros results out Ho Hm. unfold search_complete. rewrite Ho, Hm. simpl.
      split; [reflexivity|]. rewrite lookup_insert_eq, Hn. reflexivity.
    + intros e Ho. unfold search_complete. rewrite Ho. reflexivity.
Qed.

Lemma search_defaults_to_coles_witness :
  search_route (Some "k"%string) up_flour None (Some "Flour"%string) w0 =
    search_route (Some "k"%string) up_flour (Some "coles"%string) (Some "Flour"%string) w0 /\
  calls (snd (search_route (Some "k"%string) up_flour None (Some "Flour"%string) w0)) =
    [coles_request "Flour"] /\
  (exists r, normalize obj_flour = Ok r /\
     fst (search_route (Some "k"%string) up_flour None (Some "Flour"%string) w0) =
     {| status := 200; content := BList [r] |}).
Proof.
  destruct (search_defaults_to_coles (Some "k"%string) up_flour (Some "Flour"%string) w0)
    as (H0 & _ & _ & H).
  destruct (H "Flour"%string eq_refl eq_refl eq_refl) as (_ & _ & _ & Hm).
  destruct (Hm (or_introl eq_refl)) as (Hc & Ho & _).
  split; [exact H0|]. split; [exact Hc|].
  destruct (normalize obj_flour) as [r|e] eqn:E; [|vm_compute in E; discriminate].
  exists r. split; [reflexivity|].
  apply (Ho (Some [obj_flour]) [r]); [reflexivity|].
  simpl. rewrite E. reflexivity.
Defined.

(* ===================================================================== *)
(** * Further properties of the code *)
(* ===================================================================== *)

(** ** Failing fast *)

Section FailFast.
Variable RAPIDAPI_KEY : option string.
Variable upstream : request -> Z -> reply.

Lemma search_begin_no_key store query page size w :
  nonempty (default EmptyString RAPIDAPI_KEY) = false ->
  search_begin RAPIDAPI_KEY upstream store query page size w =
  (Settled (Throw key_missing), w).
Proof. intros H. unfold search_begin, ensureKey. now rewrite H. Qed.

(** X1.  Without the key nothing is attempted: every search throws the
    error of [ensureKey], and every route that got its parameter answers
    500 with that message; no request is sent and the cache, expired
    entries included, is left as it is. *)
Theorem missing_key_fails_fast store q items w :
  nonempty (default EmptyString RAPIDAPI_KEY) = false ->
  (forall s query page size,
     callStoreSearch RAPIDAPI_KEY upstream s query page size w =
     (Throw key_missing, w)) /\
  (nonempty q = true ->
   search_route RAPIDAPI_KEY upstream store (Some q) w = (server_error key_missing, w) /\
   cheapest_route RAPIDAPI_KEY upstream (Some q) w = (server_error key_missing, w)) /\
  (parse_items items <> [] ->
   bulk_route RAPIDAPI_KEY upstream items w = (server_error key_missing, w)).
Proof.
  intros H.
  assert (Hs : forall s query page size,
             callStoreSearch RAPIDAPI_KEY upstream s query page size w =
             (Throw key_missing, w)).
  { intros. unfold callStoreSearch. now rewrite search_begin_no_key. }
  assert (Hb : forall name, search_both RAPIDAPI_KEY upstream name w =
                            (Throw key_missing, w)).
  { intros. unfold search_both. now rewrite !search_begin_no_key. }
  split; [exact Hs|]. split.
  - intros Hq. destruct q as [|c q]; [discriminate|]. split.
    + unfold search_route. now rewrite Hs.
    + unfold cheapest_route. now rewrite Hb.
  - intros Hne. rewrite bulk_route_loop by exact Hne.
    destruct (parse_items items) as [|name rest]; [easy|].
    simpl. now rewrite Hb.
Qed.

(** X2.  A store that is neither coles nor woolworths is refused before
    anything else is done: with the key set the search throws, [/search]
    answers 500 with the message, no request is sent and the cache is left
    as it is. *)
Theorem unknown_store_refused store q w :
  nonempty (default EmptyString RAPIDAPI_KEY) = true ->
  toLowerCase store <> "coles"%string ->
  toLowerCase store <> "woolworths"%string ->
  (forall query page size,
     callStoreSearch RAPIDAPI_KEY upstream store query page size w =
     (Throw store_unknown, w)) /\
  (nonempty q = true ->
   search_route RAPIDAPI_KEY upstream (Some store) (Some q) w =
   (server_error store_unknown, w)).
Proof.
  intros Hk H1 H2.
  assert (Hn : getApiInfo store = None) by now apply getApiInfo_none.
  assert (Hs : forall query page size,
             callStoreSearch RAPIDAPI_KEY upstream store query page size w =
             (Throw store_unknown, w)).
  { intros. unfold callStoreSearch, search_begin, ensureKey. now rewrite Hk, Hn. }
  split; [exact Hs|].
  intros Hq. destruct q as [|c q]; [discriminate|].
  unfold search_route. cbn [default]. now rewrite Hs.
Qed.

End FailFast.

Lemma missing_key_fails_fast_witness :
  search_route None up_flour None (Some "oreo"%string) w_stale =
    (server_error key_missing, w_stale) /\
  bulk_route (Some ""%string) up_flour (Some "Flour"%string) w_stale =
    (server_error key_missing, w_stale).
Proof.
  split.
  - apply (missing_key_fails_fast None up_flour None "oreo"%string None w_stale eq_refl).
    reflexivity.
  - apply (missing_key_fails_fast (Some ""%string) up_flour None "oreo"%string
             (Some "Flour"%string) w_stale eq_refl).
    discriminate.
Defined.

Lemma unknown_store_refused_witness :
  search_route (Some "k"%string) up_flour (Some "Aldi"%string) (Some "oreo"%string) w_stale =
  (server_error store_unknown, w_stale).
Proof.
  apply (unknown_store_refused (Some "k"%string) up_flour "Aldi"%string "oreo"%string
           w_stale eq_refl); [discriminate | discriminate | reflexivity].
Defined.

(** ** What a search does to the server *)

Section Effects.
Variable RAPIDAPI_KEY : option string.
Variable upstream : request -> Z -> reply.

(** The part before the reply: the clock stands, at most one request is
    sent, and the cache loses at most an expired entry under the key. *)
Lemma search_begin_effect store query page size w :
  let r := search_begin RAPIDAPI_KEY upstream store query page size w in
  let key := cache_key store query page size in
  now (snd r) = now w /\
  (calls (snd r) = calls w \/
   exists api, getApiInfo store = Some api /\
     calls (snd r) =
       {| req_host := host api; req_path := path api; req_query := query;
          req_page := page; req_size := size |} :: calls w) /\
  (cache (snd r) = cache w \/
   cache (snd r) = delete key (cache w) /\
   exists old, cache w !! key = Some old /\ until old < now w) /\
  (forall l, fst r = Settled (Ok l) ->
     snd r = w /\ exists e, cache w !! key = Some e /\ value e = l /\ now w <= until e) /\
  (forall k rp, fst r = InFlight k rp -> k = key /\ cache (snd r) !! key = None).
Proof.
  cbv zeta. unfold search_begin.
  destruct (ensureKey RAPIDAPI_KEY) as [[]|e0]; simpl;
    [|repeat split; auto; discriminate].
  destruct (getApiInfo store) as [api|]; simpl;
    [|repeat split; auto; discriminate].
  unfold getCache.
  destruct (cache w !! _) as [hit|] eqn:Hhit;
    [destruct (until hit <? now w) eqn:Hexp|]; simpl.
  - apply Z.ltb_lt in Hexp.
    split; [reflexivity|]. split; [right; eauto|]. split; [right; eauto|].
    split; [discriminate|]. intros k rp [= <- _]. split; [reflexivity|].
    apply lookup_delete_eq.
  - apply Z.ltb_ge in Hexp.
    split; [reflexivity|]. split; [now left|]. split; [now left|].
    split; [|discriminate]. intros l [= <-]. eauto 10.
  - split; [reflexivity|]. split; [right; eauto|]. split; [now left|].
    split; [discriminate|]. intros k rp [= <- _]. now split.
Qed.

(** The part after the reply: no request is sent, the clock stands, and
    the cache gets the list under the key, or nothing when the search
    throws. *)
Lemma search_complete_effect key rp w :
  let r := search_complete key rp w in
  now (snd r) = now w /\ calls (snd r) = calls w /\
  match fst r with
  | Ok out =>
      cache (snd r) =
      <[key := {| until := now w + DEFAULT_TTL; value := out |}]> (cache w)
  | Throw _ => snd r = w
  end.
Proof.
  cbv zeta. unfold search_complete.
  destruct (outcome rp) as [results|e]; simpl; [|auto].
  destruct (res_map normalize _) as [out|e]; simpl; auto.
Qed.

(** X3.  A search touches the cache under its own key only, and a search
    that throws stores nothing: it leaves the cache as it was, but for an
    expired entry under its key, which is gone.  The clock never goes
    back. *)
Theorem search_cache_frame store query page size w r w1 :
  callStoreSearch RAPIDAPI_KEY upstream store query page size w = (r, w1) ->
  let key := cache_key store query page size in
  (forall k, k <> key -> cache w1 !! k = cache w !! k) /\
  now w <= now w1 /\
  (forall e, r = Throw e ->
     cache w1 = cache w \/
     cache w1 = delete key (cache w) /\
     exists old, cache w !! key = Some old /\ until old < now w).
Proof.
  unfold callStoreSearch. cbv zeta.
  pose proof (search_begin_effect store query page size w) as Hb. cbv zeta in Hb.
  destruct (search_begin _ _ store query page size w) as [p wb].
  simpl in Hb. destruct Hb as (Hnow & _ & Hcache & _ & Hfl).
  destruct p as [r0|k rp]; simpl.
  - intros [= <- <-]. split; [|split; [lia|]].
    + intros k Hk. destruct Hcache as [->|[-> _]]; [reflexivity|].
      now apply lookup_delete_ne.
    + intros e _. exact Hcache.
  - destruct (Hfl k rp eq_refl) as [-> _].
    pose proof (search_complete_effect (cache_key store query page size) rp
                  (tick (latency rp) wb)) as Hc. cbv zeta in Hc.
    destruct (search_complete _ rp _) as [r1 wc]. simpl in Hc.
    destruct Hc as (Hn & _ & Hc).
    intros [= <- <-]. split; [|split].
    + intros k Hk. destruct r1 as [out|e].
      * rewrite Hc. simpl. rewrite lookup_insert_ne by congruence.
        destruct Hcache as [->|[-> _]]; [reflexivity|]. now apply lookup_delete_ne.
      * rewrite Hc. simpl.
        destruct Hcache as [->|[-> _]]; [reflexivity|]. now apply lookup_delete_ne.
    + rewrite Hn. simpl. lia.
    + intros e ->. rewrite Hc. simpl. exact Hcache.
Qed.

End Effects.

Lemma search_cache_frame_witness :
  let r := callStoreSearch (Some "k"%string) up_flaky "coles" "Flour" 1 15 w_stale in
  cache (snd r) !! "k"%string = cache w_stale !! "k"%string /\
  cache (snd r) = cache w_stale.
Proof.
  cbv zeta.
  destruct (search_cache_frame (Some "k"%string) up_flaky "coles" "Flour" 1 15 w_stale
              _ _ eq_refl) as (H1 & _ & H3).
  split.
  - apply H1. discriminate.
  - destruct (H3 (Error "Request failed with status code 503") eq_refl)
      as [H|[_ (old & Hold & _)]]; [exact H|].
    vm_compute in Hold. discriminate.
Defined.

(** ** How many requests a route sends *)

Section Requests.
Variable RAPIDAPI_KEY : option string.
Variable upstream : request -> Z -> reply.

Lemma await_all_calls pa pb w :
  calls (snd (await_all pa pb w)) = calls w.
Proof.
  destruct pa as [ra|ka rpa], pb as [rb|kb rpb]; simpl; [reflexivity| | |].
  - pose proof (search_complete_effect kb rpb (tick (latency rpb) w)) as H.
    cbv zeta in H. destruct (search_complete kb rpb _) as [b w1]. simpl in *.
    now destruct H as (_ & -> & _).
  - pose proof (search_complete_effect ka rpa (tick (latency rpa) w)) as H.
    cbv zeta in H. destruct (search_complete ka rpa _) as [a w1]. simpl in *.
    now destruct H as (_ & -> & _).
  - destruct (latency rpa <=? latency rpb)%N.
    + pose proof (search_complete_effect ka rpa (tick (latency rpa) w)) as H.
      cbv zeta in H. destruct (search_complete ka rpa _) as [a w1]. simpl in H.
      pose proof (search_complete_effect kb rpb
                    (tick (latency rpb - latency rpa) w1)) as H'.
      cbv zeta in H'. destruct (search_complete kb rpb _) as [b w2]. simpl in *.
      destruct H as (_ & H & _), H' as (_ & H' & _). congruence.
    + pose proof (search_complete_effect kb rpb (tick (latency rpb) w)) as H.
      cbv zeta in H. destruct (search_complete kb rpb _) as [b w1]. simpl in H.
      pose proof (search_complete_effect ka rpa
                    (tick (latency rpa - latency rpb) w1)) as H'.
      cbv zeta in H'. destruct (search_complete ka rpa _) as [a w2]. simpl in *.
      destruct H as (_ & H & _), H' as (_ & H' & _). congruence.
Qed.

Lemma search_begin_sent store q w :
  getApiInfo store =
    Some {| host := if String.eqb store "coles"
                    then "coles-product-price-api.p.rapidapi.com"
                    else "woolworths-products-api.p.rapidapi.com";
            path := if String.eqb store "coles"
                    then "/coles/product-search"
                    else "/woolworths/product-search/" |} ->
  exists sent,
    calls (snd (search_begin RAPIDAPI_KEY upstream store q 1 15 w)) = sent ++ calls w /\
    (length sent <= 1)%nat /\ Forall (route_request q) sent.
Proof.
  intros Hapi.
  destruct (search_begin_effect RAPIDAPI_KEY upstream store q 1 15 w)
    as (_ & [H|(api & Ha & H)] & _).
  - exists []. split; [exact H|]. split; [simpl; lia|constructor].
  - eexists [_]. split; [exact H|]. split; [simpl; lia|].
    constructor; [|constructor]. rewrite Hapi in Ha. injection Ha as <-.
    unfold route_request. simpl. repeat split.
    destruct (String.eqb store "coles"); auto.
Qed.

(** Both searches of a [Promise.all]: at most one request to each
    provider. *)
Lemma search_both_sent q w :
  exists sent,
    calls (snd (search_both RAPIDAPI_KEY upstream q w)) = sent ++ calls w /\
    (length sent <= 2)%nat /\ Forall (route_request q) sent.
Proof.
  unfold search_both.
  destruct (search_begin_sent "coles" q w eq_refl) as (s1 & H1 & L1 & F1).
  destruct (search_begin _ _ "coles" q 1 15 w) as [pa w1]. simpl in H1.
  destruct (search_begin_sent "woolworths" q w1 eq_refl) as (s2 & H2 & L2 & F2).
  destruct (search_begin _ _ "woolworths" q 1 15 w1) as [pb w2]. simpl in H2.
  exists (s2 ++ s1). rewrite await_all_calls, H2, H1, app_assoc.
  split; [reflexivity|]. split; [rewrite length_app; lia|].
  apply Forall_app. now split.
Qed.

Lemma bulk_loop_sent items : forall out w,
  exists sent,
    calls (snd (bulk_loop RAPIDAPI_KEY upstream items out w)) = sent ++ calls w /\
    (length sent <= 2 * length items)%nat /\
    Forall (fun rq => exists name, In name items /\ route_request name rq) sent.
Proof.
  induction items as [|name rest IH]; intros out w.
  - exists []. simpl. split; [reflexivity|]. split; [lia|constructor].
  - cbn [bulk_loop].
    destruct (search_both_sent name w) as (s1 & H1 & L1 & F1).
    destruct (search_both _ _ name w) as [[[coles woolworths]|e] w1]; simpl in H1.
    + destruct (attribute _) as [a|e].
      * destruct (IH (out ++ [(name, a)]) w1) as (s2 & H2 & L2 & F2).
        exists (s2 ++ s1). rewrite H2, H1, app_assoc.
        split; [reflexivity|]. split; [rewrite length_app; simpl; lia|].
        apply Forall_app. split.
        -- eapply List.Forall_impl; [|exact F2]. intros rq (n & Hn & Hr).
           exists n. split; [now right|exact Hr].
        -- eapply List.Forall_impl; [|exact F1]. intros rq Hr.
           exists name. split; [now left|exact Hr].
      * exists s1. simpl. split; [exact H1|]. split; [lia|].
        eapply List.Forall_impl; [|exact F1]. intros rq Hr.
        exists name. split; [now left|exact Hr].
    + exists s1. simpl. split; [exact H1|]. split; [lia|].
      eapply List.Forall_impl; [|exact F1]. intros rq Hr.
      exists name. split; [now left|exact Hr].
Qed.

(** X4.  The requests of the routes are bounded: [/cheapest] sends at
    most two requests and [/bulk-cheapest-perkg] at most two for each item
    that survived the parsing, whatever the providers reply; each request
    asks one of the two providers for page 1 with 15 results, with the
    query, respectively one of the items, as its text. *)
Theorem route_requests_bounded q items w :
  (exists sent,
     calls (snd (cheapest_route RAPIDAPI_KEY upstream q w)) = sent ++ calls w /\
     (length sent <= 2)%nat /\
     Forall (fun rq => exists t, q = Some t /\ route_request t rq) sent) /\
  (exists sent,
     calls (snd (bulk_route RAPIDAPI_KEY upstream items w)) = sent ++ calls w /\
     (length sent <= 2 * length (parse_items items))%nat /\
     Forall (fun rq => exists name,
                 In name (parse_items items) /\ route_request name rq) sent).
Proof.
  split.
  - unfold cheapest_route.
    destruct q as [[|c t]|];
      try (exists []; simpl; split; [reflexivity|]; split; [lia|constructor]).
    destruct (search_both_sent (String c t) w) as (s & H & L & F).
    exists s.
    destruct (search_both _ _ (String c t) w) as [[[coles woolworths]|e] w1];
      simpl in *; (split; [exact H|]; split; [exact L|]);
      (eapply List.Forall_impl; [|exact F]); eauto.
  - destruct (parse_items items) as [|n ns] eqn:E.
    + rewrite bulk_route_empty by exact E. exists [].
      split; [reflexivity|]. split; [simpl; lia|constructor].
    + rewrite bulk_route_loop by (rewrite E; discriminate). rewrite E.
      destruct (bulk_loop_sent (n :: ns) [] w) as (s & H & L & F).
      exists s.
      destruct (bulk_loop _ _ (n :: ns) [] w) as [[out|e] w1]; simpl in *; auto.
Qed.

End Requests.

(** ** The winners *)

Lemma filter_twice {A : Type} (f g : A -> bool) (l : list A) :
  List.filter g (List.filter f l) = List.filter (fun x => f x && g x) l.
Proof.
  induction l as [|x l IH]; simpl; [reflexivity|].
  destruct (f x); simpl; [|exact IH]. destruct (g x); now rewrite IH.
Qed.

Lemma ltb_leb a b : ltb a b = true -> SFleb a b = true.
Proof.
  unfold ltb, SFltb, SFleb. destruct (SFcompare a b) as [[]|]; easy.
Qed.

Lemma leb_refl a : is_nan a = false -> SFleb a a = true.
Proof.
  unfold SFleb. destruct a as [s|s| |s m e]; try easy; destruct s; simpl;
    try reflexivity; rewrite Z.compare_refl;
    change (Pos.compare_cont Eq m m) with (Pos.compare m m);
    now rewrite Pos.compare_refl.
Qed.

(** X5.  The batch route picks for an item the record [/cheapest] reports
    as cheapest by kilogram for the same two lists. *)
Theorem bulk_winner_is_cheapest_byKg coles woolworths :
  bulk_best coles woolworths = cheapest_byKg coles woolworths.
Proof.
  unfold bulk_best, cheapest_byKg, cheapest_all. now rewrite filter_twice.
Qed.

(** X6.  On lists the normaliser built, a cheapest-by-kg winner never comes
    without a cheapest-by-item winner, and the by-item winner's price is at
    most the price of the by-kg winner. *)
Theorem byKg_winner_not_cheaper rawA rawB coles woolworths k :
  res_map normalize rawA = Ok coles ->
  res_map normalize rawB = Ok woolworths ->
  cheapest_byKg coles woolworths = Some k ->
  exists i pi pk,
    cheapest_byItem coles woolworths = Some i /\
    Product.price i = Some pi /\ Product.price k = Some pk /\
    SFleb pi pk = true.
Proof.
  intros HA HB Hk.
  assert (Hwf : Forall well_formed (coles ++ woolworths)).
  { apply Forall_app. split; eapply List.Forall_impl;
      try (eapply res_map_Forall; eassumption);
      intros r [obj Hr]; now apply normalize_well_formed in Hr. }
  pose proof (filter_comparable_price _ Hwf) as Hc.
  pose proof (reduce_best_minimum Product.price Infinity _ Hc) as Hmin.
  apply reduce_best_in, filter_In in Hk as [Hin _].
  fold (cheapest_all coles woolworths) in Hmin, Hin, Hc.
  change (reduce_best (lt_key Product.price Infinity) (cheapest_all coles woolworths))
    with (cheapest_byItem coles woolworths) in Hmin.
  destruct (cheapest_byItem coles woolworths) as [i|]; simpl in Hmin.
  - destruct Hmin as (pi & l1 & l2 & Hall & Hpi & H1 & H2).
    rewrite Hall in Hin, Hc. rewrite List.Forall_forall in H1, H2.
    apply in_app_or in Hin as [Hin|[<-|Hin]].
    + destruct (H1 k Hin) as (pk & Hpk & Hlt).
      exists i, pi, pk. repeat split; auto. now apply ltb_leb.
    + exists i, pi, pi. repeat split; auto.
      apply Forall_app in Hc as [_ Hc]. apply Forall_cons in Hc as [(p & Hp & Hn) _].
      rewrite Hpi in Hp. injection Hp as <-. now apply leb_refl.
    + destruct (H2 k Hin) as (pk & Hpk & Hle). exists i, pi, pk. auto.
  - rewrite Hmin in Hin. contradiction.
Qed.

Lemma byKg_winner_not_cheaper_witness :
  exists i pi pk,
    cheapest_byItem listA listB = Some i /\
    Product.price i = Some pi /\
    option_map Product.price (cheapest_byKg listA listB) = Some (Some pk) /\
    SFleb pi pk = true.
Proof.
  destruct (byKg_winner_not_cheaper rawA rawB listA listB
              (default empty_record (cheapest_byKg listA listB))
              eq_refl eq_refl eq_refl) as (i & pi & pk & Hi & Hpi & Hpk & Hle).
  exists i, pi, pk. repeat split; auto.
  vm_compute in Hpk. injection Hpk as <-. reflexivity.
Defined.

(** ** Signs *)

Lemma binary_round_aux_sign s m e l :
  0 <= m -> is_negative (binary_round_aux prec emax s m e l) = s.
Proof.
  intros H. unfold binary_round_aux.
  pose proof (shr_fexp_nonneg m e l H) as H1.
  destruct (shr_fexp prec emax m e l) as [mrs' e']. simpl in H1.
  pose proof (shr_fexp_nonneg _ e' loc_Exact
                (round_nearest_even_nonneg _ (loc_of_shr_record mrs') H1)) as H2.
  destruct (shr_fexp prec emax _ e' loc_Exact) as [mrs'' e'']. simpl in H2.
  destruct (shr_m mrs'') as [|p|p]; [reflexivity| |lia].
  now destruct (e'' <=? emax - prec).
Qed.

Lemma of_ratio_sign s m d : 0 <= m -> 0 < d -> is_negative (of_ratio s m d) = s.
Proof.
  intros Hm Hd. unfold of_ratio. destruct m as [|p|p]; [reflexivity| |lia].
  pose proof (div_core_nonneg (Z.pos p) 0 d 0 Hm Hd) as H.
  destruct (SFdiv_core_binary prec emax (Z.pos p) 0 d 0) as [[q e] l].
  now apply binary_round_aux_sign.
Qed.

Lemma mul_sign a b :
  is_negative a = false -> is_negative b = false -> is_negative (mul a b) = false.
Proof.
  unfold mul. destruct a as [sa|sa| |sa ma ea], b as [sb|sb| |sb mb eb];
    simpl; intros Ha Hb; subst; try reflexivity.
  now apply binary_round_aux_sign.
Qed.

Lemma div_sign a b :
  is_negative a = false -> is_negative b = false -> is_negative (div a b) = false.
Proof.
  unfold div. destruct a as [sa|sa| |sa ma ea], b as [sb|sb| |sb mb eb];
    simpl; intros Ha Hb; subst; try reflexivity.
  pose proof (div_core_nonneg (Z.pos ma) ea (Z.pos mb) eb) as H.
  destruct (SFdiv_core_binary prec emax (Z.pos ma) ea (Z.pos mb) eb) as [[q e] l].
  apply binary_round_aux_sign, H; lia.
Qed.

Lemma round2_sign x :
  is_negative x = false -> is_negative (unary_plus (toFixed2 x)) = false.
Proof.
  destruct x as [s|s| |s m e]; simpl; try easy. intros ->.
  destruct (ge_1e21 m e); simpl; [reflexivity|].
  apply of_ratio_sign; [apply scaled2_nonneg | lia].
Qed.

Lemma leb_zero n : is_nan n = false -> is_negative n = false -> SFleb zero n = true.
Proof. destruct n as [s|s| |s m e]; simpl; try easy; now intros _ ->. Qed.

Lemma digit_val_nonneg x : is_digit x = true -> (0 <=? digit_val x) = true.
Proof. revert x. char_fact. Qed.

Lemma digits_value_nonneg l : forall acc,
  0 <= acc -> Forall (fun x => is_digit x = true) l -> 0 <= digits_value acc l.
Proof.
  induction l as [|x l IH]; intros acc Ha Hl; simpl; [exact Ha|].
  apply Forall_cons in Hl as [Hx Hl]. apply IH; [|exact Hl].
  apply digit_val_nonneg, Z.leb_le in Hx. lia.
Qed.

(** A decimal literal has no sign. *)
Lemma decimal_prefix_sign l n r :
  decimal_prefix l = Some (n, r) -> is_negative n = false.
Proof.
  unfold decimal_prefix.
  assert (Hi : 0 <= digits_value 0 (take_while is_digit l))
    by (apply digits_value_nonneg; [lia|apply take_while_all]).
  assert (Hw : is_negative (of_ratio false (digits_value 0 (take_while is_digit l)) 1)
               = false) by (apply of_ratio_sign; lia).
  destruct (drop_while is_digit l) as [|x r2].
  - destruct (take_while is_digit l); [discriminate|]. now intros [= <- _].
  - destruct (is_dot x).
    + assert (Hf : is_negative
                     (of_ratio false
                        (digits_value 0 (take_while is_digit l ++ take_while is_digit r2))
                        (10 ^ Z.of_nat (length (take_while is_digit r2)))) = false).
      { apply of_ratio_sign.
        - apply digits_value_nonneg; [lia|].
          apply Forall_app. split; apply take_while_all.
        - apply Z.pow_pos_nonneg; lia. }
      destruct (take_while is_digit l), (take_while is_digit r2);
        try discriminate; now intros [= <- _].
    + destruct (take_while is_digit l); [discriminate|]. now intros [= <- _].
Qed.

Lemma parseFloat_sign s : is_negative (parseFloat s) = false.
Proof.
  unfold parseFloat. destruct (decimal_prefix _) as [[n r]|] eqn:E; [|reflexivity].
  now apply decimal_prefix_sign in E.
Qed.

Lemma Number_str_sign o : is_negative (Number_str o) = false.
Proof.
  unfold Number_str. destruct o as [[|c t]|]; try reflexivity.
  destruct (decimal_prefix _) as [[n [|x r]]|] eqn:E; try reflexivity.
  now apply decimal_prefix_sign in E.
Qed.

Lemma unitToKg_sign q u k :
  is_negative q = false -> unitToKg q u = Some k -> is_negative k = false.
Proof.
  intros Hq. unfold unitToKg.
  assert (Hd : is_negative (div q (of_Z 1000)) = false) by now apply div_sign.
  repeat match goal with
         | |- context [String.eqb ?a ?b] => destruct (String.eqb a b)
         end; try discriminate; now intros [= <-].
Qed.

(** X7.  A price given as text loses its sign: [toNumber] of a text strips
    the minus with the other characters, so its result is never below
    zero; [toNumber("-4.50")] is 4.5. *)
Theorem toNumber_text_unsigned s n :
  toNumber (VStr s) = Some n ->
  is_negative n = false /\ SFleb zero n = true /\
  toNumber (VStr "-4.50") = Some (of_ratio false 45 10).
Proof.
  intros H. pose proof (toNumber_finite _ _ H) as Hf.
  unfold toNumber in H. simpl in H.
  destruct (isFinite (parseFloat (strip_non_numeric s))); [|discriminate].
  injection H as <-.
  pose proof (parseFloat_sign (strip_non_numeric s)) as Hs.
  split; [exact Hs|]. split; [|reflexivity].
  apply leb_zero; [now apply isFinite_not_nan | exact Hs].
Qed.

Lemma toNumber_text_unsigned_witness :
  is_negative (of_ratio false 45 10) = false /\
  SFleb zero (of_ratio false 45 10) = true.
Proof.
  destruct (toNumber_text_unsigned "-4.50" (of_ratio false 45 10) eq_refl)
    as (H1 & H2 & _).
  now split.
Defined.

Lemma sizeToKg_sign s k : sizeToKg s = Some k -> is_negative k = false.
Proof.
  unfold sizeToKg.
  destruct (str_match s re_multi) as [m|].
  - intros [= <-]. unfold mul_nullable. apply mul_sign; [apply Number_str_sign|].
    destruct (unitToKg _ _) as [v|] eqn:E; [|reflexivity].
    simpl. eapply unitToKg_sign; [|exact E]. apply Number_str_sign.
  - destruct (str_match s re_single) as [m|]; [|discriminate].
    apply unitToKg_sign, Number_str_sign.
Qed.

(** X8.  No size parses to a negative kilogram-equivalent, so the unit
    price of a record is negative only if its price is: with a price that
    is not negative, [pricePerKg] is zero or more. *)
Theorem unit_price_sign obj r p v :
  normalize obj = Ok r ->
  Product.price r = Some p -> is_negative p = false ->
  Product.pricePerKg r = Some v ->
  (forall s k, sizeToKg s = Some k -> is_negative k = false) /\
  is_negative v = false /\ SFleb zero v = true.
Proof.
  intros H Hp Hn Hv. split; [apply sizeToKg_sign|].
  pose proof (normalize_well_formed _ _ H) as [_ Hnan].
  pose proof (Hnan v Hv) as Hvn.
  destruct (normalize_inv _ _ H) as (kg & Hsz & Hk & _).
  rewrite Hk in Hv.
  apply pricePerKg_of_some in Hv as (k & p' & -> & Hp' & _ & _ & ->).
  rewrite Hp in Hp'. injection Hp' as <-.
  apply sizeToKg_call_some in Hsz as (s & _ & Hs). apply sizeToKg_sign in Hs.
  assert (Hsign : is_negative (unary_plus (toFixed2 (div p k))) = false)
    by now apply round2_sign, div_sign.
  split; [exact Hsign|]. now apply leb_zero.
Qed.

Lemma unit_price_sign_witness :
  exists r v, normalize obj_minus = Ok r /\
              Product.price r = Some (of_ratio false 45 10) /\
              Product.pricePerKg r = Some v /\
              is_negative v = false /\ SFleb zero v = true.
Proof.
  eexists. eexists. split; [reflexivity|]. split; [reflexivity|].
  split; [reflexivity|].
  apply (unit_price_sign obj_minus _ (of_ratio false 45 10) _ eq_refl eq_refl
           eq_refl eq_refl).
Defined.

(** ** The items of a batch *)

Lemma drop_while_suffix p l : exists pre, l = pre ++ drop_while p l.
Proof.
  induction l as [|x l (pre & IH)]; simpl; [now exists []|].
  destruct (p x); [|now exists []].
  exists (x :: pre). simpl. now rewrite <- IH.
Qed.

Lemma drop_while_first p l x t : drop_while p l = x :: t -> p x = false.
Proof.
  induction l as [|y l IH]; simpl; [discriminate|].
  destruct (p y) eqn:E; [exact IH|]. now intros [= <- _].
Qed.

Lemma drop_while_Forall (P : ascii -> Prop) p l :
  Forall P l -> Forall P (drop_while p l).
Proof.
  intros H. destruct (drop_while_suffix p l) as [pre E].
  rewrite E in H. now apply Forall_app in H as [_ H].
Qed.

Lemma trim_list_Forall (P : ascii -> Prop) l : Forall P l -> Forall P (trim_list l).
Proof.
  intros H. unfold trim_list.
  apply Forall_rev, drop_while_Forall, Forall_rev, drop_while_Forall, H.
Qed.

(** What [trim] returns neither starts nor ends with white space. *)
Lemma trim_list_last l t x : trim_list l = t ++ [x] -> is_space x = false.
Proof.
  unfold trim_list. intros H.
  apply (f_equal (@rev ascii)) in H. rewrite rev_involutive, rev_app_distr in H.
  simpl in H. now apply drop_while_first in H.
Qed.

Lemma trim_list_first l x t : trim_list l = x :: t -> is_space x = false.
Proof.
  unfold trim_list. intros H.
  destruct (drop_while_suffix is_space (rev (drop_while is_space l))) as [pre E].
  apply (f_equal (@rev ascii)) in E.
  rewrite rev_involutive, rev_app_distr, H in E. simpl in E.
  now apply drop_while_first in E.
Qed.

Lemma nonempty_list s : nonempty s = true -> list_ascii_of_string s <> [].
Proof. now destruct s. Qed.

(** X9.  Every item the batch route processes is clean: it is not empty,
    holds no comma, and neither starts nor ends with white space. *)
Theorem parse_items_clean items name :
  In name (parse_items items) ->
  let l := list_ascii_of_string name in
  l <> [] /\
  Forall (fun x => is_comma x = false) l /\
  (forall x t, l = x :: t -> is_space x = false) /\
  (forall t x, l = t ++ [x] -> is_space x = false).
Proof.
  unfold parse_items. intros H.
  apply filter_In in H as [H Hne]. apply in_map_iff in H as (piece & <- & H).
  unfold split in H. apply in_map_iff in H as (p & <- & H).
  cbv zeta. unfold trim in *.
  rewrite !list_ascii_of_string_of_list_ascii in *.
  split; [|split; [|split]].
  - apply nonempty_list in Hne.
    now rewrite list_ascii_of_string_of_list_ascii in Hne.
  - apply trim_list_Forall.
    pose proof (split_comma_pieces (list_ascii_of_string (default EmptyString items)))
      as Hp.
    rewrite List.Forall_forall in Hp. now apply Hp.
  - intros x t. apply trim_list_first.
  - intros t x. apply trim_list_last.
Qed.

Lemma parse_items_clean_witness :
  parse_items (Some " Cocoa Powder ,, Flour"%string) =
    ["Cocoa Powder"%string; "Flour"%string] /\
  Forall (fun x => is_comma x = false) (list_ascii_of_string "Cocoa Powder").
Proof.
  split; [reflexivity|].
  apply (parse_items_clean (Some " Cocoa Powder ,, Flour"%string) "Cocoa Powder"%string).
  left. reflexivity.
Defined.

(** ** A record the normaliser cannot take *)

Lemma res_map_throws l :
  Exists bad_size l -> res_map normalize l = Throw no_match_method.
Proof.
  induction l as [|obj l IH]; intros H; [inversion H|]. simpl.
  destruct (normalize obj) as [r|e] eqn:E.
  - simpl. rewrite IH; [reflexivity|].
    inversion H as [? ? Hb|]; subst; [|assumption].
    assert (Ht : normalize obj = Throw no_match_method)
      by now apply normalize_throws.
    congruence.
  - simpl. now apply normalize_throws in E as [_ ->].
Qed.

(** X10.  One record whose size is a number or [true] fails the whole
    search: when the reply to a request holds such a record,
    [callStoreSearch] throws the [TypeError] of the missing [match], the
    good records of the reply are lost with it, and nothing is cached. *)
Theorem bad_size_fails_search RAPIDAPI_KEY upstream store query page size w
        api results :
  nonempty (default EmptyString RAPIDAPI_KEY) = true ->
  getApiInfo store = Some api ->
  cache w !! cache_key store query page size = None ->
  outcome (upstream {| req_host := host api; req_path := path api;
                       req_query := query; req_page := page; req_size := size |}
                    (now w)) = Ok (Some results) ->
  Exists bad_size results ->
  exists w1,
    callStoreSearch RAPIDAPI_KEY upstream store query page size w =
      (Throw no_match_method, w1) /\
    cache w1 = cache w.
Proof.
  intros Hk Ha Hc Ho Hb.
  unfold callStoreSearch, search_begin, ensureKey. rewrite Hk, Ha.
  rewrite (getCache_absent _ _ Hc). simpl.
  unfold search_complete. rewrite Ho. simpl.
  rewrite (res_map_throws _ Hb). eauto.
Qed.

Lemma bad_size_fails_search_witness :
  fst (callStoreSearch (Some "k"%string) up_numeric_size "coles" "oreo" 1 15 w0) =
  Throw no_match_method.
Proof.
  destruct (bad_size_fails_search (Some "k"%string) up_numeric_size
              "coles" "oreo" 1 15 w0 coles_api [obj_flour; obj_numeric_size]
              eq_refl eq_refl eq_refl eq_refl) as (w1 & -> & _).
  - right. left. exact I.
  - reflexivity.
Defined.

(** ** Cache keys *)

Lemma append_length a b :
  String.length (a ++ b) = (String.length a + String.length b)%nat.
Proof. induction a as [|c a IH]; simpl; [reflexivity|]. now rewrite IH. Qed.

Lemma append_inv_head a x y : (a ++ x = a ++ y)%string -> x = y.
Proof. induction a as [|c a IH]; simpl; [easy|]. intros [= H]. auto. Qed.

Lemma append_inv_tail t : forall x y, (x ++ t = y ++ t)%string -> x = y.
Proof.
  induction x as [|c x IH]; intros [|d y] H; simpl in H.
  - reflexivity.
  - apply (f_equal String.length) in H. rewrite !append_length in H. simpl in H. lia.
  - apply (f_equal String.length) in H. rewrite !append_length in H. simpl in H. lia.
  - injection H as -> H. f_equal. now apply IH.
Qed.

(** Two texts without a bar, each followed by a bar: the first bar tells
    where the first text ends. *)
Lemma append_bar_inv s : forall s' r r',
  no_bar s -> no_bar s' ->
  (s ++ String "|" r = s' ++ String "|" r')%string -> s = s' /\ r = r'.
Proof.
  unfold no_bar.
  induction s as [|c s IH]; intros [|c' s'] r r' Hs Hs' H; simpl in *.
  - injection H as <-. now split.
  - injection H as <- _. apply Forall_cons in Hs' as [Hc _]. now elim Hc.
  - injection H as -> _. apply Forall_cons in Hs as [Hc _]. now elim Hc.
  - injection H as -> H. apply Forall_cons in Hs as [_ Hs].
    apply Forall_cons in Hs' as [_ Hs'].
    destruct (IH s' r r' Hs Hs' H) as [-> ->]. now split.
Qed.

Lemma lower_bar x : lower_char x = "|"%char -> x = "|"%char.
Proof. revert x. char_fact. Qed.

Lemma lower_no_bar s : no_bar (toLowerCase s) -> no_bar s.
Proof.
  unfold no_bar. induction s as [|c s IH]; simpl; [constructor|].
  intros H. apply Forall_cons in H as [Hc H]. constructor; [|now apply IH].
  intros ->. now apply Hc.
Qed.

(** A store the server knows is written without a bar. *)
Lemma known_store_no_bar store : getApiInfo store <> None -> no_bar store.
Proof.
  intros H. apply lower_no_bar. unfold getApiInfo in H.
  destruct (String.eqb_spec (toLowerCase store) "coles") as [->|_].
  - unfold no_bar. simpl. repeat constructor; discriminate.
  - destruct (String.eqb_spec (toLowerCase store) "woolworths") as [->|_];
      [|congruence].
    unfold no_bar. simpl. repeat constructor; discriminate.
Qed.

(** X11.  Cache entries do not collide: two searches with stores the
    server knows and the same page and size share a cache key only when
    store and query are the same, so a list fetched for one provider or one
    query is never served for another. *)
Theorem cache_key_injective store query store' query' page size :
  getApiInfo store <> None -> getApiInfo store' <> None ->
  cache_key store query page size = cache_key store' query' page size ->
  store = store' /\ query = query'.
Proof.
  intros Hs Hs' H. unfold cache_key in H.
  apply known_store_no_bar in Hs, Hs'.
  apply append_inv_head in H.
  apply append_bar_inv in H as [-> H]; [|assumption|assumption].
  split; [reflexivity|].
  injection H as H. now apply append_inv_tail in H.
Qed.

Lemma cache_key_injective_witness :
  cache_key "coles" "flour" 1 15 <> cache_key "woolworths" "flour" 1 15 /\
  cache_key "coles" "flour" 1 15 <> cache_key "coles" "flour|p:1" 1 15.
Proof.
  split; intros H;
    apply cache_key_injective in H as [H1 H2]; discriminate.
Defined.

(** ** The store of a record *)

Lemma list_of_append a b :
  list_ascii_of_string (a ++ b) = list_ascii_of_string a ++ list_ascii_of_string b.
Proof. induction a as [|c a IH]; simpl; [reflexivity|]. now rewrite IH. Qed.

Lemma is_prefix_spec p : forall l,
  is_prefix p l = true <-> exists b, l = p ++ b.
Proof.
  induction p as [|x p IH]; intros l; simpl.
  - split; [eauto|reflexivity].
  - destruct l as [|y l]; [split; [discriminate|intros [b [=]]]|].
    rewrite andb_true_iff, IH. split.
    + intros [Hx [b ->]]. apply Ascii.eqb_eq in Hx as ->. eauto.
    + intros [b [= -> ->]]. split; [apply Ascii.eqb_refl|eauto].
Qed.

Lemma includes_list_spec p : forall l,
  includes_list l p = true <-> exists a b, l = a ++ p ++ b.
Proof.
  induction l as [|y l IH].
  - simpl. rewrite orb_false_r, is_prefix_spec. split.
    + intros [b H]. exists [], b. exact H.
    + intros (a & b & H). destruct a; [now exists b|discriminate].
  - cbn [includes_list]. rewrite orb_true_iff, is_prefix_spec, IH. split.
    + intros [[b H]|(a & b & ->)]; [exists [], b; exact H|].
      exists (y :: a), b. reflexivity.
    + intros (a & b & H). destruct a as [|z a]; [left; now exists b|].
      right. injection H as <- ->. eauto.
Qed.

Lemma string_of_app a b :
  string_of_list_ascii (a ++ b) = (string_of_list_ascii a ++ string_of_list_ascii b)%string.
Proof. induction a as [|c a IH]; simpl; [reflexivity|]. now rewrite IH. Qed.

(** [includes] is true exactly when the text occurs. *)
Lemma includes_spec s t : includes s t = true <-> occurs_in t s.
Proof.
  unfold includes, occurs_in. rewrite includes_list_spec. split.
  - intros (a & b & H).
    exists (string_of_list_ascii a), (string_of_list_ascii b).
    rewrite <- (string_of_list_ascii_of_string s), H, !string_of_app.
    now rewrite string_of_list_ascii_of_string.
  - intros (a & b & ->). exists (list_ascii_of_string a), (list_ascii_of_string b).
    now rewrite !list_of_append.
Qed.

(** X12.  The store a record is attributed to is read from its url alone:
    woolworths exactly when the url, in lower case, holds "woolworths"
    somewhere, coles exactly when it holds "coles" and no "woolworths",
    and none otherwise; a url that is truthy and not a text makes the
    attribution throw. *)
Theorem guessStore_label p :
  (forall u, Product.url p = VStr u ->
     (guessStore p = Ok (Some "woolworths"%string) <->
      occurs_in "woolworths" (toLowerCase u)) /\
     (guessStore p = Ok (Some "coles"%string) <->
      occurs_in "coles" (toLowerCase u) /\ ~ occurs_in "woolworths" (toLowerCase u)) /\
     (guessStore p = Ok None <->
      ~ occurs_in "coles" (toLowerCase u) /\ ~ occurs_in "woolworths" (toLowerCase u))) /\
  ((exists e, guessStore p = Throw e) <->
   truthy (Product.url p) = true /\ forall u, Product.url p <> VStr u).
Proof.
  split.
  - intros u Hu.
    assert (Hg : guessStore p =
                 Ok (if includes (toLowerCase u) "woolworths" then Some "woolworths"%string
                     else if includes (toLowerCase u) "coles" then Some "coles"%string
                     else None)).
    { unfold guessStore, js_or. rewrite Hu. simpl. now destruct u. }
    rewrite Hg. rewrite <- !includes_spec.
    destruct (includes (toLowerCase u) "woolworths"),
             (includes (toLowerCase u) "coles");
      repeat split; intros; try discriminate; try reflexivity;
      repeat match goal with H : _ /\ _ |- _ => destruct H end;
      try congruence; try (intros ?; discriminate).
  - unfold guessStore, js_or.
    destruct (Product.url p) as [| |b|n|u]; simpl.
    + split; [intros [e [=]]|intros [[=] _]].
    + split; [intros [e [=]]|intros [[=] _]].
    + destruct b; simpl.
      * split; [intros _; split; [reflexivity|discriminate]|eauto].
      * split; [intros [e [=]]|intros [[=] _]].
    + destruct (Num.truthy n); simpl.
      * split; [intros _; split; [reflexivity|discriminate]|eauto].
      * split; [intros [e [=]]|intros [[=] _]].
    + split.
      * destruct (nonempty u); intros [e [=]].
      * intros [_ H]. now elim (H u).
Qed.

Lemma guessStore_label_witness :
  guessStore (record_with_url (VStr "https://www.Woolworths.com.au/shop/coles-brand")) =
    Ok (Some "woolworths"%string) /\
  exists e, guessStore (record_with_url (VNum (of_Z 7))) = Throw e.
Proof.
  split.
  - apply (proj1 (guessStore_label
             (record_with_url (VStr "https://www.Woolworths.com.au/shop/coles-brand")))
             "https://www.Woolworths.com.au/shop/coles-brand"%string eq_refl).
    exists "https://www."%string, ".com.au/shop/coles-brand"%string. reflexivity.
  - apply (proj2 (guessStore_label (record_with_url (VNum (of_Z 7))))).
    split; [reflexivity|discriminate].
Defined.

(** ** Item lists that name nothing *)

Lemma drop_while_nil p l :
  drop_while p l = [] <-> Forall (fun x => p x = true) l.
Proof.
  induction l as [|x l IH]; simpl; [split; [constructor|reflexivity]|].
  destruct (p x) eqn:E.
  - rewrite IH. split; [now constructor|]. intro H. now apply Forall_cons in H as [_ H].
  - split; [discriminate|]. intro H. apply Forall_cons in H as [H _]. congruence.
Qed.

Lemma trim_list_nil l :
  trim_list l = [] <-> Forall (fun x => is_space x = true) l.
Proof.
  split.
  - intros H. destruct (trim_list l) eqn:E; [|discriminate].
    unfold trim_list in E.
    apply (f_equal (@rev ascii)) in E. rewrite rev_involutive in E. simpl in E.
    apply drop_while_nil in E.
    destruct (drop_while is_space l) as [|x t] eqn:D; [now apply drop_while_nil|].
    apply drop_while_first in D.
    apply Forall_rev in E. rewrite rev_involutive in E.
    apply Forall_cons in E as [E _]. congruence.
  - intros H. unfold trim_list. apply drop_while_nil in H. now rewrite H.
Qed.

Lemma split_comma_blank l :
  Forall (Forall (fun x => is_space x = true)) (split_comma l) <->
  Forall (fun x => is_blank x = true) l.
Proof.
  induction l as [|x l IH]; [split; repeat constructor|].
  cbn [split_comma].
  destruct (split_comma_cons l) as (p & ps & E). rewrite E in *.
  assert (B : is_blank x = (code x =? 44)%N || is_space x) by reflexivity.
  destruct (code x =? 44)%N eqn:C.
  - split.
    + intros H. apply Forall_cons in H as [_ H]. constructor; [now rewrite B|].
      now apply IH.
    + intros H. apply Forall_cons in H as [_ H]. constructor; [constructor|].
      now apply IH.
  - simpl in B. split.
    + intros H. apply Forall_cons in H as [H Hps].
      apply Forall_cons in H as [Hx Hp]. constructor; [now rewrite B|].
      apply IH. now constructor.
    + intros H. apply Forall_cons in H as [Hx H]. apply IH in H.
      apply Forall_cons in H as [Hp Hps]. rewrite B in Hx.
      constructor; [now constructor|exact Hps].
Qed.

Lemma filter_nil {A} (f : A -> bool) l :
  List.filter f l = [] <-> Forall (fun x => f x = false) l.
Proof.
  induction l as [|x l IH]; simpl; [split; [constructor|reflexivity]|].
  destruct (f x) eqn:E.
  - split; [discriminate|]. intro H. apply Forall_cons in H as [H _]. congruence.
  - rewrite IH, Forall_cons. intuition.
Qed.

Lemma nonempty_of_list l : nonempty (string_of_list_ascii l) = false <-> l = [].
Proof. destruct l; simpl; split; congruence. Qed.

(** X13.  The batch route answers 400 exactly when the item list holds
    nothing but commas and white space (the empty and the missing list
    included); it then leaves the world as it is. *)
Theorem blank_items_refused RAPIDAPI_KEY upstream items w :
  let blank := Forall (fun x => is_blank x = true)
                      (list_ascii_of_string (default EmptyString items)) in
  (parse_items items = [] <-> blank) /\
  (status (fst (bulk_route RAPIDAPI_KEY upstream items w)) = 400%nat <-> blank) /\
  (blank ->
   bulk_route RAPIDAPI_KEY upstream items w =
   ({| status := 400; content := BError "Provide ?items=Flour,Sugar,..." |}, w)).
Proof.
  cbv zeta.
  assert (P : parse_items items = [] <->
              Forall (fun x => is_blank x = true)
                     (list_ascii_of_string (default EmptyString items))).
  { unfold parse_items, split, trim. rewrite filter_nil, <- split_comma_blank.
    rewrite !List.Forall_map. apply Forall_iff. intros p.
    rewrite list_ascii_of_string_of_list_ascii, nonempty_of_list.
    apply trim_list_nil. }
  split; [exact P|]. split.
  - rewrite <- P. split.
    + intros H. destruct (parse_items items) as [|n ns] eqn:E; [reflexivity|].
      rewrite bulk_route_loop in H by (rewrite E; discriminate).
      destruct (bulk_loop _ _ _ _ _) as [[out|e] w1]; simpl in H; discriminate.
    + intros H. now rewrite bulk_route_empty.
  - intros H. apply bulk_route_empty, P, H.
Qed.

Lemma blank_items_refused_witness :
  bulk_route (Some "k"%string) up_flour (Some " ,, , "%string) w0 =
  ({| status := 400; content := BError "Provide ?items=Flour,Sugar,..." |}, w0).
Proof.
  apply (proj2 (proj2 (blank_items_refused (Some "k"%string) up_flour
                         (Some " ,, , "%string) w0))).
  repeat constructor.
Defined.

(** ** The comparison route with providers that answer *)

Lemma attribute_inv best a :
  attribute best = Ok a ->
  option_map record a = best /\
  forall x, a = Some x -> guessStore (record x) = Ok (store x).
Proof.
  unfold attribute. destruct best as [p|].
  - destruct (guessStore p) as [s|e] eqn:G; simpl; [|discriminate].
    intros [= <-]. split; [reflexivity|]. now intros x [= <-].
  - intros [= <-]. split; [reflexivity|discriminate].
Qed.

(** X14.  With the key set and providers that answer with well-typed
    records, the comparison route answers 200 for every non-empty query:
    the answer repeats the query, its two winners are the cheapest record
    by price and by unit price of the two lists searched, and each winner
    carries the store read from its own url. *)
Theorem cheapest_route_answers RAPIDAPI_KEY upstream q w :
  nonempty (default EmptyString RAPIDAPI_KEY) = true ->
  (forall rq t, exists results,
      outcome (upstream rq t) = Ok results /\ Forall raw_ok (default [] results)) ->
  cache_ok w ->
  nonempty q = true ->
  exists coles woolworths i k w',
    search_both RAPIDAPI_KEY upstream q w = (Ok (coles, woolworths), w') /\
    cheapest_route RAPIDAPI_KEY upstream (Some q) w =
      ({| status := 200; content := BCheapest q i k |}, w') /\
    option_map record i = cheapest_byItem coles woolworths /\
    option_map record k = cheapest_byKg coles woolworths /\
    (forall x, i = Some x \/ k = Some x -> guessStore (record x) = Ok (store x)).
Proof.
  intros Hk Hup Hw Hq.
  destruct (search_both_ok RAPIDAPI_KEY upstream Hk Hup q w Hw)
    as (la & lb & w' & S & Ha & Hb & Hw').
  assert (Hab : Forall url_text (la ++ lb)) by (apply Forall_app; auto).
  destruct (attribute_ok price_lt has_price (la ++ lb) Hab) as [i Hi].
  assert (Hall : Forall url_text (cheapest_all la lb)).
  { unfold cheapest_all. apply List.Forall_forall. intros x Hx.
    apply filter_In in Hx as [Hx _]. rewrite List.Forall_forall in Hab. auto. }
  destruct (attribute_ok perKg_lt has_perKg (cheapest_all la lb) Hall) as [k Hk'].
  exists la, lb, i, k, w'. split; [exact S|].
  destruct (attribute_inv _ _ Hi) as [Ei Si].
  destruct (attribute_inv _ _ Hk') as [Ek Sk].
  split.
  - unfold cheapest_route. destruct q as [|c q]; [discriminate|].
    rewrite S. unfold cheapest_byItem, cheapest_byKg.
    unfold cheapest_all at 1. rewrite Hi. simpl. rewrite Hk'. reflexivity.
  - split; [exact Ei|]. split; [exact Ek|].
    intros x [H|H]; auto.
Qed.

Lemma cheapest_route_answers_witness :
  exists coles woolworths i k w',
    search_both (Some "k"%string) up_flour "Flour" w0 = (Ok (coles, woolworths), w') /\
    cheapest_route (Some "k"%string) up_flour (Some "Flour"%string) w0 =
      ({| status := 200; content := BCheapest "Flour" i k |}, w') /\
    option_map record i = cheapest_byItem coles woolworths /\
    option_map record k = cheapest_byKg coles woolworths /\
    (forall x, i = Some x \/ k = Some x -> guessStore (record x) = Ok (store x)).
Proof.
  apply (cheapest_route_answers (Some "k"%string) up_flour "Flour" w0);
    [reflexivity | apply up_flour_ok | apply cache_ok_empty | reflexivity].
Defined.

(** ** The origin check *)

Lemma strip_prefix_spec p : forall l t,
  Cors.strip_prefix p l = Some t <-> l = p ++ t.
Proof.
  induction p as [|a p IH]; intros l t; simpl.
  - split; [now intros [= ->]|now intros ->].
  - destruct l as [|b l]; [split; discriminate|].
    destruct (Ascii.eqb a b) eqn:E.
    + apply Ascii.eqb_eq in E as ->. rewrite IH. split; [now intros ->|now intros [= ->]].
    + split; [discriminate|]. intros [= -> _]. now rewrite Ascii.eqb_refl in E.
Qed.

Lemma run_spec c k : forall s,
  Cors.run c s k = true <->
  exists u t, s = u ++ t /\ Forall (fun x => c x = true) u /\ k t = true.
Proof.
  induction s as [|x s IH]; simpl.
  - split.
    + intros H. exists [], []. auto.
    + intros (u & t & E & _ & H). symmetry in E. apply app_eq_nil in E as [_ ->].
      exact H.
  - rewrite orb_true_iff, andb_true_iff, IH. split.
    + intros [[Hx (u & t & -> & Hu & Hk)]|Hk].
      * exists (x :: u), t. auto.
      * exists [], (x :: s). auto.
    + intros (u & t & E & Hu & Hk). destruct u as [|y u]; simpl in E.
      * right. now subst t.
      * injection E as <- ->. apply Forall_cons in Hu as [Hx Hu]. left. eauto 6.
Qed.

(** The matcher finds exactly the matches. *)
Lemma pmatch_spec r : forall s k,
  Cors.pmatch r s k = true <-> exists t, Cors.matches r s t /\ k t = true.
Proof.
  induction r as [l|c|c|r IH|a IHa b IHb|]; intros s k; simpl.
  - destruct (Cors.strip_prefix _ s) as [t|] eqn:E.
    + apply strip_prefix_spec in E. split; [eauto|].
      intros (t' & E' & H). rewrite E in E'. apply app_inv_head in E'. now subst.
    + split; [discriminate|]. intros (t & E' & _).
      apply strip_prefix_spec in E'. congruence.
  - rewrite run_spec. split.
    + intros (u & t & -> & Hu & Hk). eauto 6.
    + intros (t & (u & -> & Hu) & Hk). eauto 6.
  - destruct s as [|x s].
    + split; [discriminate|]. intros (t & (y & u & E & _) & _). discriminate.
    + rewrite andb_true_iff, run_spec. split.
      * intros [Hx (u & t & -> & Hu & Hk)]. exists t. split; [|exact Hk].
        exists x, u. auto.
      * intros (t & (y & u & E & Hy & Hu) & Hk). injection E as <- ->. eauto 6.
  - rewrite orb_true_iff, IH. split.
    + intros [(t & H & Hk)|Hk]; eauto.
    + intros (t & [H| ->] & Hk); eauto.
  - rewrite IHa. split.
    + intros (m & Ha & Hb). apply IHb in Hb as (t & Hb & Hk). eauto.
    + intros (t & (m & Ha & Hb) & Hk). exists m. split; [exact Ha|].
      apply IHb. eauto.
  - destruct s; split.
    + intros H. exists []. auto.
    + now intros (t & [_ ->] & H).
    + discriminate.
    + intros (t & [[=] _] & _).
Qed.

Lemma test_from_spec r : forall s,
  Cors.test_from r s = true <->
  exists pre suf t, s = pre ++ suf /\ Cors.matches r suf t.
Proof.
  induction s as [|x s IH]; cbn [Cors.test_from]; rewrite orb_true_iff, pmatch_spec.
  - split.
    + intros [(t & H & _)|[=]]. exists [], [], t. auto.
    + intros (pre & suf & t & E & H). symmetry in E.
      apply app_eq_nil in E as [_ ->]. left. eauto.
  - rewrite IH. split.
    + intros [(t & H & _)|(pre & suf & t & -> & H)].
      * exists [], (x :: s), t. auto.
      * exists (x :: pre), suf, t. auto.
    + intros (pre & suf & t & E & H). destruct pre as [|y pre]; simpl in E.
      * left. subst suf. eauto.
      * right. injection E as <- ->. eauto.
Qed.

Lemma test_itch s :
  Cors.test (Cors.Seq (Cors.Lits "https://")
               (Cors.Seq (Cors.Star Cors.dot) (Cors.Seq (Cors.Lits ".itch.io") Cors.End_))) s
    = true <-> Cors.itch_origin s.
Proof.
  unfold Cors.test, Cors.itch_origin. rewrite test_from_spec. cbn [Cors.matches]. split.
  - intros (pre & suf & t & E & m1 & -> & m2 & (u & -> & Hu) & m3 & -> & -> & ->).
    exists pre, u. rewrite E. split; [|exact Hu]. now rewrite app_nil_r.
  - intros (pre & mid & E & Hm).
    exists pre, (list_ascii_of_string "https://" ++ mid ++ list_ascii_of_string ".itch.io"), [].
    split; [exact E|].
    exists (mid ++ list_ascii_of_string ".itch.io"). split; [reflexivity|].
    exists (list_ascii_of_string ".itch.io"). split; [eauto|].
    exists []. auto.
Qed.

Lemma test_localhost scheme s :
  Cors.test (Cors.localhost scheme) s = true <-> Cors.localhost_origin scheme s.
Proof.
  unfold Cors.test, Cors.localhost_origin, Cors.localhost, Cors.port_text.
  rewrite test_from_spec. cbn [Cors.matches]. split.
  - intros (pre & suf & t & E & m1 & -> & m2 & -> & m3 & Hp & -> & ->).
    exists pre, m2. rewrite E. split; [reflexivity|].
    destruct Hp as [(m & -> & d & ds & -> & Hd & Hds)| ->]; [|now left].
    right. exists d, ds. rewrite app_nil_r. split; [reflexivity|now constructor].
  - intros (pre & port & E & Hp).
    exists pre, (list_ascii_of_string scheme ++ list_ascii_of_string "://localhost" ++ port), [].
    split; [exact E|].
    exists (list_ascii_of_string "://localhost" ++ port). split; [reflexivity|].
    exists port. split; [reflexivity|]. exists []. split; [|auto].
    destruct Hp as [->|(d & ds & -> & Hd)]; [now right|]. left.
    apply Forall_cons in Hd as [Hd Hds].
    exists (d :: ds). split; [reflexivity|]. exists d, ds. rewrite app_nil_r. auto.
Qed.

(** When the check lets an origin through. *)
Lemma origin_passes o :
  Cors.origin o = (None, true) <->
  o = None \/ o = Some EmptyString \/
  exists s, o = Some s /\
    (Cors.itch_origin s \/ Cors.localhost_origin "http" s \/
     Cors.localhost_origin "https" s).
Proof.
  destruct o as [[|c s]|]; cbn [Cors.origin].
  - split; auto.
  - set (o := String c s).
    assert (E : existsb (fun r => Cors.test r o) Cors.allowed = true <->
                Cors.itch_origin o \/ Cors.localhost_origin "http" o \/
                Cors.localhost_origin "https" o).
    { unfold Cors.allowed. cbn [existsb].
      rewrite !orb_true_iff, test_itch, !test_localhost. intuition discriminate. }
    destruct (existsb _ Cors.allowed).
    + split; [|reflexivity].
      intros _. right. right. exists o. split; [reflexivity|]. now apply E.
    + split; [discriminate|].
      intros [H|[H|(s' & H & H')]]; try discriminate.
      injection H as <-. apply E in H'. discriminate.
  - split; auto.
Qed.

(** X15.  The origin check lets a request through exactly when the Origin
    header is missing or empty, or its text ends with [https://], any
    characters of one line and [.itch.io], or ends with
    [http://localhost] or [https://localhost] and an optional port of
    digits; every other origin is refused with the error CORS blocked. *)
Theorem origin_allowed_iff o :
  (Cors.origin o = (None, true) \/
   Cors.origin o = (Some (Error "CORS blocked"), false)) /\
  (Cors.origin o = (None, true) <->
   o = None \/ o = Some EmptyString \/
   exists s, o = Some s /\
     (Cors.itch_origin s \/ Cors.localhost_origin "http" s \/
      Cors.localhost_origin "https" s)).
Proof.
  split; [|apply origin_passes].
  destruct o as [[|c s]|]; cbn [Cors.origin]; auto.
  destruct (existsb _ Cors.allowed); auto.
Qed.

(** X16.  An origin that is let through stays so with any text put before
    it: the check looks at the end of the header only, so the scheme and
    host it names need not be where the header starts. *)
Theorem origin_start_unanchored pre s :
  s <> EmptyString ->
  Cors.origin (Some s) = (None, true) ->
  Cors.origin (Some (pre ++ s)%string) = (None, true).
Proof.
  intros Hs H. apply origin_passes in H. apply origin_passes.
  destruct H as [H|[H|(s' & H & H')]]; try congruence.
  injection H as <-.
  right. right. exists (pre ++ s)%string. split; [reflexivity|].
  destruct H' as [(p & mid & E & Hm)|[(p & port & E & Hp)|(p & port & E & Hp)]].
  - left. exists (list_ascii_of_string pre ++ p), mid.
    rewrite list_of_append, E, <- app_assoc. auto.
  - right. left. exists (list_ascii_of_string pre ++ p), port.
    rewrite list_of_append, E, <- app_assoc. auto.
  - right. right. exists (list_ascii_of_string pre ++ p), port.
    rewrite list_of_append, E, <- app_assoc. auto.
Qed.

Lemma origin_start_unanchored_witness :
  Cors.origin (Some "https://evil.example/?https://game.itch.io"%string) = (None, true).
Proof.
  apply (origin_start_unanchored "https://evil.example/?" "https://game.itch.io");
    [discriminate | reflexivity].
Defined.

(** ** A comparison asked again *)

Section Repeat.
Variable RAPIDAPI_KEY : option string.
Variable upstream : request -> Z -> reply.

Lemma store_keys_differ q :
  cache_key "coles" q 1 15 <> cache_key "woolworths" q 1 15.
Proof. discriminate. Qed.

Lemma both_ok {A B} (a : res A) (b : res B) x y :
  both a b = Ok (x, y) -> a = Ok x /\ b = Ok y.
Proof. destruct a, b; simpl; intros [=]; subst; auto. Qed.

Lemma swap_both_ok {A B} (a : res A) (b : res B) x y :
  swap_res (both b a) = Ok (x, y) -> a = Ok x /\ b = Ok y.
Proof. destruct a, b; simpl; intros [=]; subst; auto. Qed.

(** After both searches succeeded the cache holds both lists. *)
Lemma search_both_cached q w la lb w1 :
  search_both RAPIDAPI_KEY upstream q w = (Ok (la, lb), w1) ->
  nonempty (default EmptyString RAPIDAPI_KEY) = true /\
  exists ea eb,
    cache w1 !! cache_key "coles" q 1 15 = Some ea /\ value ea = la /\
    cache w1 !! cache_key "woolworths" q 1 15 = Some eb /\ value eb = lb.
Proof.
  intros H. split.
  { revert H. unfold search_both, search_begin, ensureKey.
    destruct (nonempty _); [reflexivity|]. simpl. discriminate. }
  revert H. unfold search_both.
  pose proof (store_keys_differ q) as Hne.
  pose proof (search_begin_effect RAPIDAPI_KEY upstream "coles" q 1 15 w) as Ha.
  cbv zeta in Ha.
  destruct (search_begin _ _ "coles" q 1 15 w) as [pa wa]. simpl in Ha.
  destruct Ha as (_ & _ & _ & Hsa & Hfa).
  pose proof (search_begin_effect RAPIDAPI_KEY upstream "woolworths" q 1 15 wa) as Hb.
  cbv zeta in Hb.
  destruct (search_begin _ _ "woolworths" q 1 15 wa) as [pb wb]. simpl in Hb.
  destruct Hb as (_ & _ & Hcb & Hsb & Hfb).
  assert (Hkeep : forall e, cache wa !! cache_key "coles" q 1 15 = Some e ->
                            cache wb !! cache_key "coles" q 1 15 = Some e).
  { intros e He. destruct Hcb as [->|[-> _]]; [exact He|].
    now rewrite lookup_delete_ne by congruence. }
  destruct pa as [ra|ka rpa], pb as [rb|kb rpb]; cbn [await_all].
  - intros [= H <-]. apply both_ok in H as [-> ->].
    destruct (Hsa la eq_refl) as (-> & ea & Ea & Va & _).
    destruct (Hsb lb eq_refl) as (-> & eb & Eb & Vb & _). eauto 8.
  - destruct (Hfb kb rpb eq_refl) as [-> _].
    pose proof (search_complete_effect (cache_key "woolworths" q 1 15) rpb
                  (tick (latency rpb) wb)) as Hc. cbv zeta in Hc.
    destruct (search_complete _ rpb _) as [b w2]. simpl in Hc.
    destruct Hc as (_ & _ & Hc).
    intros [= H <-]. apply both_ok in H as [-> ->].
    destruct (Hsa la eq_refl) as (-> & ea & Ea & Va & _).
    rewrite Hc. simpl. exists ea. eexists.
    rewrite lookup_insert_ne by congruence. rewrite lookup_insert_eq.
    split; [now apply Hkeep|]. auto.
  - destruct (Hfa ka rpa eq_refl) as [-> _].
    pose proof (search_complete_effect (cache_key "coles" q 1 15) rpa
                  (tick (latency rpa) wb)) as Hc. cbv zeta in Hc.
    destruct (search_complete _ rpa _) as [a w2]. simpl in Hc.
    destruct Hc as (_ & _ & Hc).
    intros [= H <-]. apply swap_both_ok in H as [-> ->].
    destruct (Hsb lb eq_refl) as (-> & eb & Eb & Vb & _).
    rewrite Hc. simpl. eexists. exists eb.
    rewrite lookup_insert_eq. rewrite lookup_insert_ne by congruence. auto.
  - destruct (Hfa ka rpa eq_refl) as [-> _].
    destruct (Hfb kb rpb eq_refl) as [-> _].
    destruct (latency rpa <=? latency rpb)%N.
    + pose proof (search_complete_effect (cache_key "coles" q 1 15) rpa
                    (tick (latency rpa) wb)) as Hc. cbv zeta in Hc.
      destruct (search_complete _ rpa _) as [a w2]. simpl in Hc.
      destruct Hc as (_ & _ & Hc).
      pose proof (search_complete_effect (cache_key "woolworths" q 1 15) rpb
                    (tick (latency rpb - latency rpa) w2)) as Hc'. cbv zeta in Hc'.
      destruct (search_complete _ rpb _) as [b w3]. simpl in Hc'.
      destruct Hc' as (_ & _ & Hc').
      intros [= H <-]. apply both_ok in H as [-> ->].
      rewrite Hc', Hc. simpl. do 2 eexists.
      rewrite lookup_insert_ne by congruence. rewrite !lookup_insert_eq. auto.
    + pose proof (search_complete_effect (cache_key "woolworths" q 1 15) rpb
                    (tick (latency rpb) wb)) as Hc. cbv zeta in Hc.
      destruct (search_complete _ rpb _) as [b w2]. simpl in Hc.
      destruct Hc as (_ & _ & Hc).
      pose proof (search_complete_effect (cache_key "coles" q 1 15) rpa
                    (tick (latency rpa - latency rpb) w2)) as Hc'. cbv zeta in Hc'.
      destruct (search_complete _ rpa _) as [a w3]. simpl in Hc'.
      destruct Hc' as (_ & _ & Hc').
      intros [= H <-]. apply swap_both_ok in H as [-> ->].
      rewrite Hc', Hc. simpl. do 2 eexists.
      rewrite lookup_insert_eq. rewrite lookup_insert_ne by congruence.
      rewrite lookup_insert_eq. auto.
Qed.

(** With both lists fresh in the cache the two searches send nothing. *)
Lemma search_both_hit q w ea eb :
  nonempty (default EmptyString RAPIDAPI_KEY) = true ->
  cache w !! cache_key "coles" q 1 15 = Some ea -> now w <= until ea ->
  cache w !! cache_key "woolworths" q 1 15 = Some eb -> now w <= until eb ->
  search_both RAPIDAPI_KEY upstream q w = (Ok (value ea, value eb), w).
Proof.
  intros Hk Ea La Eb Lb. unfold search_both, search_begin, ensureKey.
  rewrite Hk.
  destruct (getApiInfo "coles") eqn:Ga; [|vm_compute in Ga; discriminate].
  destruct (getApiInfo "woolworths") eqn:Gb; [|vm_compute in Gb; discriminate].
  rewrite (getCache_fresh _ _ _ Ea La).
  rewrite (getCache_fresh _ _ _ Eb Lb). reflexivity.
Qed.

(** X17.  A comparison that was answered with 200 left both providers'
    lists in the cache, and the same comparison asked again before either
    entry expires gets the same answer without a request being sent or
    the cache being touched. *)
Theorem cheapest_repeat_from_cache q w resp w1 :
  cheapest_route RAPIDAPI_KEY upstream (Some q) w = (resp, w1) ->
  status resp = 200%nat ->
  exists ea eb,
    cache w1 !! cache_key "coles" q 1 15 = Some ea /\
    cache w1 !! cache_key "woolworths" q 1 15 = Some eb /\
    forall d, now w1 + Z.of_N d <= until ea -> now w1 + Z.of_N d <= until eb ->
      cheapest_route RAPIDAPI_KEY upstream (Some q) (tick d w1) = (resp, tick d w1).
Proof.
  unfold cheapest_route at 1. destruct q as [|c q]; [intros [= <- _]; discriminate|].
  set (s := String c q).
  destruct (search_both _ _ s w) as [[[la lb]|e] w'] eqn:S;
    [|intros [= <- _]; discriminate].
  intros [= R <-] St.
  apply search_both_cached in S as (Hk & ea & eb & Ea & Va & Eb & Vb).
  exists ea, eb. split; [exact Ea|]. split; [exact Eb|].
  intros d Ha Hb. unfold cheapest_route. fold s.
  rewrite (search_both_hit s (tick d w') ea eb Hk Ea Ha Eb Hb), Va, Vb, R.
  reflexivity.
Qed.

End Repeat.

Lemma cheapest_repeat_from_cache_witness :
  let r := cheapest_route (Some "k"%string) up_flour (Some "Flour"%string) w0 in
  cheapest_route (Some "k"%string) up_flour (Some "Flour"%string) (tick 44000 (snd r)) =
  (fst r, tick 44000 (snd r)).
Proof.
  intros r.
  destruct (cheapest_repeat_from_cache (Some "k"%string) up_flour "Flour" w0
              (fst r) (snd r)) as (ea & eb & Ea & Eb & H).
  - apply surjective_pairing.
  - vm_compute. reflexivity.
  - vm_compute in Ea. vm_compute in Eb.
    injection Ea as <-. injection Eb as <-.
    apply H; vm_compute; discriminate.
Defined.
